(** * roky: relay and framing engine of the Roku debugger client

    A shallow embedding of [roky.py]: the display encoder [consoleFormat],
    the UTF-8 reassembly step and loop of [rokuReaderThread], and the line
    framing and reserved-command handling of [consoleThread].

    Python [bytes] are lists of integers in [0,256), Python [str] values are
    lists of code points.  Sockets, the console and the log file are modelled
    by explicit state passing over the sequence of results that the blocking
    calls return. *)

From Stdlib Require Import ZArith List Lia Bool String Ascii.
Import ListNotations.
Open Scope Z_scope.

(** ** Data *)

Definition bytes := list Z.
Definition pystr := list Z.

(** A string literal of the source, as the code points of its characters. *)
Definition lit (s : string) : pystr :=
  map (fun a => Z.of_N (N_of_ascii a)) (list_ascii_of_string s).

Definition CR : Z := 13.
Definition LF : Z := 10.
Definition TAB : Z := 9.

(** ** Number formatting: [format(n, 'x')] and the [{:0Wx}] fields *)

Definition hexdigit (d : Z) : Z := if d <? 10 then 48 + d else 87 + d.

Fixpoint hex_digits (fuel : nat) (n : Z) (acc : pystr) : pystr :=
  match fuel with
  | O => acc
  | S f =>
      let acc' := hexdigit (n mod 16) :: acc in
      if n / 16 =? 0 then acc' else hex_digits f (n / 16) acc'
  end.

(** [format(n, 'x')] for [n >= 0]: lowercase digits, no leading zero. *)
Definition format_x (n : Z) : pystr :=
  hex_digits (S (Z.to_nat (Z.log2 n))) n [].

(** ["{:0Wx}".format(n)]: zero padding up to a minimum width. *)
Definition format_0x (width : nat) (n : Z) : pystr :=
  repeat 48 (width - List.length (format_x n)) ++ format_x n.

(** ** The [printable] table *)

Definition printable : list Z :=
  [ 0; 0; 0; 0; 0; 0; 0; 0; 0; 1; 1; 0; 0; 1; 0; 0; 0; 0; 0; 0; 0; 0; 0; 0; 0; 0; 0; 0; 0; 0; 0; 0;
    1; 1; 1; 1; 1; 1; 1; 1; 1; 1; 1; 1; 1; 1; 1; 1; 1; 1; 1; 1; 1; 1; 1; 1; 1; 1; 1; 1; 1; 1; 1; 1;
    1; 1; 1; 1; 1; 1; 1; 1; 1; 1; 1; 1; 1; 1; 1; 1; 1; 1; 1; 1; 1; 1; 1; 1; 1; 1; 1; 1; 1; 1; 1; 1;
    1; 1; 1; 1; 1; 1; 1; 1; 1; 1; 1; 1; 1; 1; 1; 1; 1; 1; 1; 1; 1; 1; 1; 1; 1; 1; 1; 1; 1; 1; 1; 0 ].

(** ** consoleFormat: the body of the loop over the decoded characters *)

Definition hi10 (cp : Z) : Z :=
  let bt20 := cp - 0x10000 in
  Z.land (Z.shiftr (Z.land bt20 0xFFC00) 10) 0x3FF + 0xD800.

Definition lo10 (cp : Z) : Z :=
  let bt20 := cp - 0x10000 in
  Z.land bt20 0x3FF + 0xDC00.

Definition formatChar (cp : Z) : pystr :=
  if cp <? 0x80 then
    if nth (Z.to_nat cp) printable 0 =? 1 then [cp]
    else lit "\x" ++ format_0x 2 cp
  else if cp <=? 0x0513 then [cp]
  else if cp <? 0x10000 then lit "\u" ++ format_0x 4 cp
  else if cp <? 0x110000 then
    lit "\u" ++ format_0x 4 (hi10 cp) ++ lit "\u" ++ format_0x 4 (lo10 cp)
  else [0xFFFD].

(** The surrogate pair as the specification writes it (RFC 2781, 2.1). *)
Definition spec_high (cp : Z) : Z := 0xD800 + Z.shiftr (cp - 0x10000) 10.
Definition spec_low (cp : Z) : Z := 0xDC00 + Z.land (cp - 0x10000) 0x3FF.

(** Two and four fixed hexadecimal digits. *)
Definition hex2 (n : Z) : pystr := [hexdigit (n / 16); hexdigit (n mod 16)].
Definition hex4 (n : Z) : pystr :=
  [hexdigit (n / 4096); hexdigit (n / 256 mod 16);
   hexdigit (n / 16 mod 16); hexdigit (n mod 16)].

(** ** The UTF-8 codec of the Python runtime

    [bytes.decode(errors=...)] and [str.encode()] are built into Python;
    they are written here after the decoder of the runtime: a byte below
    0x80 is one character, 0xC2..0xDF lead two bytes, 0xE0..0xEF three,
    0xF0..0xF4 four; over-long forms, surrogates and values above 0x10FFFF
    are rejected at the second byte.  The error handler receives the
    offending byte range and decoding resumes after it; a sequence cut short
    by the end of the input is one range reaching to the end. *)

Definition is_cont (b : Z) : bool := (0x80 <=? b) && (b <? 0xC0).

Section Decode.

Variable on_error : bytes -> pystr.

Fixpoint decode_with (bs : bytes) : pystr :=
  match bs with
  | [] => []
  | ch :: r1 =>
      if ch <? 0x80 then ch :: decode_with r1
      else if ch <? 0xC2 then on_error [ch] ++ decode_with r1
      else if ch <? 0xE0 then
        match r1 with
        | [] => on_error [ch]
        | ch2 :: r2 =>
            if is_cont ch2
            then ((ch - 0xC0) * 64 + (ch2 - 0x80)) :: decode_with r2
            else on_error [ch] ++ decode_with r1
        end
      else if ch <? 0xF0 then
        match r1 with
        | [] => on_error [ch]
        | ch2 :: r2 =>
            if negb (is_cont ch2)
               || (if ch2 <? 0xA0 then ch =? 0xE0 else ch =? 0xED)
            then on_error [ch] ++ decode_with r1
            else
              match r2 with
              | [] => on_error [ch; ch2]
              | ch3 :: r3 =>
                  if is_cont ch3
                  then ((ch - 0xE0) * 4096 + (ch2 - 0x80) * 64 + (ch3 - 0x80))
                         :: decode_with r3
                  else on_error [ch; ch2] ++ decode_with r2
              end
        end
      else if ch <? 0xF5 then
        match r1 with
        | [] => on_error [ch]
        | ch2 :: r2 =>
            if negb (is_cont ch2)
               || (if ch2 <? 0x90 then ch =? 0xF0 else ch =? 0xF4)
            then on_error [ch] ++ decode_with r1
            else
              match r2 with
              | [] => on_error [ch; ch2]
              | ch3 :: r3 =>
                  if negb (is_cont ch3)
                  then on_error [ch; ch2] ++ decode_with r2
                  else
                    match r3 with
                    | [] => on_error [ch; ch2; ch3]
                    | ch4 :: r4 =>
                        if is_cont ch4
                        then ((ch - 0xF0) * 262144 + (ch2 - 0x80) * 4096
                              + (ch3 - 0x80) * 64 + (ch4 - 0x80))
                               :: decode_with r4
                        else on_error [ch; ch2; ch3] ++ decode_with r3
                    end
              end
        end
      else on_error [ch] ++ decode_with r1
  end.

End Decode.

(** [errors='backslashreplace']: every offending byte becomes [\xhh]. *)
Definition backslashreplace (bad : bytes) : pystr :=
  flat_map (fun b => lit "\x" ++ format_0x 2 b) bad.

(** [errors='replace']: the offending range becomes one U+FFFD. *)
Definition replace (bad : bytes) : pystr := [0xFFFD].

(** [str.encode()]: strict UTF-8; [None] stands for UnicodeEncodeError. *)
Definition encode_char (cp : Z) : option bytes :=
  if cp <? 0 then None
  else if cp <? 0x80 then Some [cp]
  else if cp <? 0x800 then Some [0xC0 + cp / 64; 0x80 + cp mod 64]
  else if cp <? 0x10000 then
    if (0xD800 <=? cp) && (cp <=? 0xDFFF) then None
    else Some [0xE0 + cp / 4096; 0x80 + cp / 64 mod 64; 0x80 + cp mod 64]
  else if cp <? 0x110000 then
    Some [0xF0 + cp / 262144; 0x80 + cp / 4096 mod 64;
          0x80 + cp / 64 mod 64; 0x80 + cp mod 64]
  else None.

Fixpoint encode (s : pystr) : option bytes :=
  match s with
  | [] => Some []
  | c :: s' =>
      match encode_char c, encode s' with
      | Some b, Some bs => Some (b ++ bs)
      | _, _ => None
      end
  end.

(** A Unicode scalar value: what valid UTF-8 encodes. *)
Definition scalar (cp : Z) : Prop :=
  0 <= cp <= 0x10FFFF /\ ~ (0xD800 <= cp <= 0xDFFF).

(** A valid UTF-8 byte sequence is the encoding of some text. *)
Definition valid_utf8 (bs : bytes) : Prop :=
  exists s : pystr, encode s = Some bs.

(** ** consoleFormat *)

Definition consoleFormat (bytesIn : bytes) : pystr :=
  flat_map formatChar (decode_with backslashreplace bytesIn).

(** ** LogWriter: the bytes of the log file while it is open *)

Record LogWriter := { logFd : option bytes }.

Definition log_write (log : LogWriter) (bytesIn : bytes) : LogWriter :=
  match logFd log with
  | Some written => {| logFd := Some (written ++ bytesIn) |}
  | None => log
  end.

(** ** rokuReaderThread *)

(** The [while] loop that steps [i] back over the continuation bytes. *)
Fixpoint scan_back (bytesIn : bytes) (i : nat) : nat :=
  match i with
  | O => O
  | S j => if Z.shiftr (nth j bytesIn 0) 6 =? 2 then scan_back bytesIn j else i
  end.

Definition expectedCont (leadByte : Z) : nat :=
  if Z.shiftr leadByte 5 =? 6 then 1
  else if Z.shiftr leadByte 4 =? 14 then 2
  else if Z.shiftr leadByte 3 =? 30 then 3
  else 0.

(** The reassembly step on a non-empty [bytesIn] (held trail already
    prepended): the bytes passed on to consoleFormat and the new trail. *)
Definition reassemble (bytesIn : bytes) : bytes * bytes :=
  let i := scan_back bytesIn (List.length bytesIn) in
  let nCont := (List.length bytesIn - i)%nat in
  match i with
  | O => ([], bytesIn)
  | S j =>
      let leadByte := nth j bytesIn 0 in
      if (nCont <? expectedCont leadByte)%nat
      then (firstn j bytesIn, skipn j bytesIn)
      else (bytesIn, [])
  end.

(** What a blocking [recv] returns, and what [console.write] does. *)
Inductive recv_result := Recv (data : bytes) | RecvRaises.
Inductive write_result := Written | RaisesUnicodeEncodeError | RaisesOther.

(** How a loop over a finite run of [recv] results ends: still parked in
    the next [recv], or left through [break] with its quit message. *)
Inductive thread_status (Q : Type) := Blocked | Quit (q : Q).
Arguments Blocked {Q}.
Arguments Quit {Q} q.

Inductive reader_quit := ReaderRecvFailed | ReaderConsoleFailed.

Record reader_state := {
  trail : bytes;
  rlog : LogWriter;
  screen : list pystr;
  warnings : nat
}.

Section Reader.

Variable console_write : pystr -> write_result.

Definition reader_iter (r : recv_result) (st : reader_state)
  : reader_state * option reader_quit :=
  match r with
  | RecvRaises => (st, Some ReaderRecvFailed)
  | Recv data =>
      let bytesIn := match trail st with [] => data | _ :: _ => trail st ++ data end in
      match bytesIn with
      | [] => ({| trail := []; rlog := rlog st;
                  screen := screen st; warnings := warnings st |}, None)
      | _ :: _ =>
          let log' := log_write (rlog st) bytesIn in
          let '(bytesOut, trail') := reassemble bytesIn in
          let text := consoleFormat bytesOut in
          match console_write text with
          | Written =>
              ({| trail := trail'; rlog := log';
                  screen := screen st ++ [text]; warnings := warnings st |}, None)
          | RaisesUnicodeEncodeError =>
              ({| trail := trail'; rlog := log';
                  screen := screen st ++ [text]; warnings := S (warnings st) |}, None)
          | RaisesOther =>
              ({| trail := trail'; rlog := log';
                  screen := screen st ++ [text]; warnings := warnings st |},
               Some ReaderConsoleFailed)
          end
      end
  end.

Fixpoint rokuReaderThread (recvs : list recv_result) (st : reader_state)
  : reader_state * thread_status reader_quit :=
  match recvs with
  | [] => (st, Blocked)
  | r :: rest =>
      match reader_iter r st with
      | (st', Some q) => (st', Quit q)
      | (st', None) => rokuReaderThread rest st'
      end
  end.

End Reader.

Definition reader_init (log : LogWriter) : reader_state :=
  {| trail := []; rlog := log; screen := []; warnings := O |}.

(** A console that accepts every text. *)
Definition console_ok (text : pystr) : write_result := Written.

(** ** consoleThread *)

(** [needle in hay] on strings. *)
Fixpoint startswith (p s : pystr) : bool :=
  match p, s with
  | [], _ => true
  | _ :: _, [] => false
  | a :: p', b :: s' => (a =? b) && startswith p' s'
  end.

Fixpoint contains (needle hay : pystr) : bool :=
  startswith needle hay
  || match hay with
     | [] => false
     | _ :: hay' => contains needle hay'
     end.

Fixpoint lstrip (ch : Z) (s : pystr) : pystr :=
  match s with
  | [] => []
  | c :: s' => if c =? ch then lstrip ch s' else s
  end.

(** [s.rstrip(ch)] for a one-character argument. *)
Definition rstrip (ch : Z) (s : pystr) : pystr := rev (lstrip ch (rev s)).

(** [reLines = [^\r]*\r] matched at the start of [s]: the matched text and
    the text after it.  The run of non-CR characters is greedy and must be
    followed by a CR, so the match ends at the first CR, if there is one. *)
Fixpoint reLines_match (s : pystr) : option (pystr * pystr) :=
  match s with
  | [] => None
  | c :: s' =>
      if c =? CR then Some ([c], s')
      else match reLines_match s' with
           | Some (m, rest) => Some (c :: m, rest)
           | None => None
           end
  end.

(** [reLines.findall]: leftmost matches, each search resuming after the
    previous match, or one character further on when there is none. *)
Fixpoint findall_from (fuel : nat) (s : pystr) : list pystr :=
  match fuel with
  | O => []
  | S f =>
      match reLines_match s with
      | Some (m, rest) => m :: findall_from f rest
      | None =>
          match s with
          | [] => []
          | _ :: s' => findall_from f s'
          end
      end
  end.

Definition reLines_findall (s : pystr) : list pystr :=
  findall_from (S (List.length s)) s.

(** [reTrail = [^\r]*\Z] matched at the start of [s]: the run must reach
    the end of the text. *)
Fixpoint reTrail_match (s : pystr) : option pystr :=
  match s with
  | [] => Some []
  | c :: s' =>
      if c =? CR then None
      else match reTrail_match s' with
           | Some m => Some (c :: m)
           | None => None
           end
  end.

(** [reTrail.search(s)] followed by [.group()]: the leftmost match. *)
Fixpoint reTrail_search (s : pystr) : option pystr :=
  match reTrail_match s with
  | Some m => Some m
  | None =>
      match s with
      | [] => None
      | _ :: s' => reTrail_search s'
      end
  end.

Inductive console_quit := ClientFinished | Terminating | ConsoleSocketError.

Record console_state := {
  charBuf : pystr;
  clog : LogWriter;
  rokuWriterQ : list bytes;
  printed : list pystr
}.

Definition tPrint (s : pystr) (st : console_state) : console_state :=
  {| charBuf := charBuf st; clog := clog st;
     rokuWriterQ := rokuWriterQ st; printed := printed st ++ [s] |}.

Definition put_nowait (msg : bytes) (st : console_state) : console_state :=
  {| charBuf := charBuf st; clog := clog st;
     rokuWriterQ := rokuWriterQ st ++ [msg]; printed := printed st |}.

Definition set_charBuf (buf : pystr) (st : console_state) : console_state :=
  {| charBuf := buf; clog := clog st;
     rokuWriterQ := rokuWriterQ st; printed := printed st |}.

(** The [for line in reLines.findall(charBuf)] loop; [false] when
    [line.encode()] raises. *)
Fixpoint relay (lines : list pystr) (st : console_state) : console_state * bool :=
  match lines with
  | [] => (st, true)
  | line :: more =>
      let st1 := tPrint (rstrip CR line) st in
      match encode line with
      | Some b => relay more (put_nowait (b ++ [LF]) st1)
      | None => (st1, false)
      end
  end.

(** The [else] branch: relay the complete lines, keep the remainder. *)
Definition frame_lines (st : console_state) : console_state * option console_quit :=
  match relay (reLines_findall (charBuf st)) st with
  | (st', false) => (st', Some ConsoleSocketError)
  | (st', true) =>
      match reTrail_search (charBuf st') with
      | Some t => (set_charBuf t st', None)
      | None => (st', Some ConsoleSocketError)
      end
  end.

Definition quit_cmd : pystr := lit "quit" ++ [CR].
Definition break_cmd : pystr := lit "break" ++ [CR].

Definition consoleThread_iter (r : recv_result) (st : console_state)
  : console_state * option console_quit :=
  match r with
  | RecvRaises => (st, Some ConsoleSocketError)
  | Recv [] => (st, Some ClientFinished)
  | Recv bytesIn =>
      let st1 :=
        {| charBuf := charBuf st ++ decode_with replace bytesIn;
           clog := log_write (clog st) (bytesIn ++ [LF]);
           rokuWriterQ := rokuWriterQ st; printed := printed st |} in
      if contains quit_cmd (charBuf st1) then (st1, Some Terminating)
      else if contains break_cmd (charBuf st1) then
        (put_nowait [0x03]
           (set_charBuf [] (tPrint (lit "roky: Breaking into debugger") st1)),
         None)
      else frame_lines st1
  end.

Fixpoint consoleThread (recvs : list recv_result) (st : console_state)
  : console_state * thread_status console_quit :=
  match recvs with
  | [] => (st, Blocked)
  | r :: rest =>
      match consoleThread_iter r st with
      | (st', Some q) => (st', Quit q)
      | (st', None) => consoleThread rest st'
      end
  end.

Definition console_init (log : LogWriter) : console_state :=
  {| charBuf := []; clog := log; rokuWriterQ := []; printed := [] |}.

(** ** rokuWriterThread *)

(** What a blocking [send] does: it accepts the first [bytesSent] bytes of
    the data and returns that count, or it raises. *)
Inductive send_result := Sent (bytesSent : nat) | SendRaises.

Inductive send_status := SendDone | SendFailed | SendPending.

(** The inner loop [while data: bytesSent = send(data); data = data[bytesSent:]]
    over the results of the successive [send] calls; [wire] is what the
    socket has accepted so far.  [SendPending]: the loop is in a [send] that
    has not returned yet. *)
Fixpoint send_loop (sends : list send_result) (data wire : bytes)
  : bytes * list send_result * send_status :=
  match data with
  | [] => (wire, sends, SendDone)
  | _ :: _ =>
      match sends with
      | [] => (wire, [], SendPending)
      | SendRaises :: sends' => (wire, sends', SendFailed)
      | Sent bytesSent :: sends' =>
          send_loop sends' (skipn bytesSent data) (wire ++ firstn bytesSent data)
      end
  end.

Inductive writer_quit := WriterSendFailed.

(** The outer loop over the messages taken from [rokuWriterQ]. *)
Fixpoint rokuWriterThread (queue : list bytes) (sends : list send_result)
    (wire : bytes) : bytes * thread_status writer_quit :=
  match queue with
  | [] => (wire, Blocked)
  | data :: queue' =>
      match send_loop sends data wire with
      | (wire', sends', SendDone) => rokuWriterThread queue' sends' wire'
      | (wire', _, SendFailed) => (wire', Quit WriterSendFailed)
      | (wire', _, SendPending) => (wire', Blocked)
      end
  end.

(** ** childMain: the input window *)

(** What [input("> ")] does: it returns a line (without line ending), or it
    raises EOFError or KeyboardInterrupt (the user pressed Ctrl/C), or it
    raises something else. *)
Inductive input_result := Typed (userInput : pystr) | Interrupted | InputRaises.

(** How the loop stands after the inputs: waiting in [input], left through
    [break] (the socket is then shut down and closed), or left by an
    exception raised inside the Ctrl/C handler, which nothing catches. *)
Inductive child_status := ChildReading | ChildClosed | ChildCrashed.

Definition quit_msg : bytes := lit "quit" ++ [CR].
Definition break_msg : bytes := lit "break" ++ [CR].

Section Child.

(** [userInput.rstrip().lower() == 'quit']: the whitespace and case tables
    of the Python runtime are taken as given. *)
Variable is_quit : pystr -> bool.

(** Whether the [n]-th [sock.send] of the run goes through; a send that
    goes through delivers its message. *)
Variable sock_up : nat -> bool.

Definition child_send (msg : bytes) (sent : list bytes) : option (list bytes) :=
  if sock_up (List.length sent) then Some (sent ++ [msg]) else None.

(** The second [try] block: the messages sent, and whether the loop goes on. *)
Definition child_relay (userInput : pystr) (sent : list bytes)
  : list bytes * bool :=
  if is_quit userInput then
    match child_send quit_msg sent with
    | Some sent' => (sent', false)
    | None => (sent, false)
    end
  else
    match encode userInput with
    | None => (sent, false)
    | Some b =>
        match child_send (b ++ [CR]) sent with
        | Some sent' => (sent', true)
        | None => (sent, false)
        end
    end.

Fixpoint childMain (inputs : list input_result) (sent : list bytes)
  : list bytes * child_status :=
  match inputs with
  | [] => (sent, ChildReading)
  | InputRaises :: _ => (sent, ChildClosed)
  | Typed userInput :: rest =>
      match child_relay userInput sent with
      | (sent', true) => childMain rest sent'
      | (sent', false) => (sent', ChildClosed)
      end
  | Interrupted :: rest =>
      match child_send break_msg sent with
      | None => (sent, ChildCrashed)
      | Some sent1 =>
          match child_relay [] sent1 with
          | (sent', true) => childMain rest sent'
          | (sent', false) => (sent', ChildClosed)
          end
      end
  end.

End Child.

(** ** Predicates used in the statements *)

(** A continuation byte, as the reader tests it. *)
Definition cont_byte (b : Z) : Prop := Z.shiftr b 6 = 2.

Definition all_cont (bs : bytes) : bool :=
  forallb (fun b => Z.shiftr b 6 =? 2) bs.

(** The text has a line terminator. *)
Definition has_CR (s : pystr) : bool := existsb (Z.eqb CR) s.

(** The state once a chunk is logged and appended to the buffer. *)
Definition received (bytesIn : bytes) (st : console_state) : console_state :=
  {| charBuf := charBuf st ++ decode_with replace bytesIn;
     clog := log_write (clog st) (bytesIn ++ [LF]);
     rokuWriterQ := rokuWriterQ st; printed := printed st |}.

(** A value a Python [bytes] object can hold. *)
Definition in_byte (b : Z) : Prop := 0 <= b < 256.

(** The code points consoleFormat lets through to the console as they
    are: printable ASCII, TAB, CR, LF and the range the font covers. *)
Definition displayable (cp : Z) : Prop :=
  0x20 <= cp <= 0x7E \/ cp = TAB \/ cp = CR \/ cp = LF \/ 0x80 <= cp <= 0x513.

(** A [send] that accepted at least one byte. *)
Definition sent_some (r : send_result) : Prop :=
  match r with Sent n => (1 <= n)%nat | SendRaises => False end.

(** A complete line as [reLines] matches it: a run without CR, then CR. *)
Definition cr_line (l : pystr) : Prop :=
  exists body, l = body ++ [CR] /\ has_CR body = false.

(** ** Proof automation *)

Ltac dm := Z.to_euclidean_division_equations; lia.

Ltac ltb_false a b :=
  replace (a <? b) with false by (symmetry; apply Z.ltb_ge; dm).
Ltac ltb_true a b :=
  replace (a <? b) with true by (symmetry; apply Z.ltb_lt; dm).
Ltac eqb_false a b :=
  replace (a =? b) with false by (symmetry; apply Z.eqb_neq; dm).

(** ** Facts on the number formatting *)

Lemma hex_digits_last (f : nat) (n : Z) (acc : pystr) :
  n / 16 = 0 -> hex_digits (S f) n acc = hexdigit (n mod 16) :: acc.
Proof.
  intros H. simpl. rewrite H. reflexivity.
Qed.

Lemma hex_digits_more (f : nat) (n : Z) (acc : pystr) :
  n / 16 <> 0 ->
  hex_digits (S f) n acc = hex_digits f (n / 16) (hexdigit (n mod 16) :: acc).
Proof.
  intros H. simpl. destruct (n / 16 =? 0) eqn:E; [apply Z.eqb_eq in E; lia | reflexivity].
Qed.

Lemma log2_fuel (n : Z) (k : Z) :
  0 <= k -> 2 ^ k <= n -> (Z.to_nat k <= Z.to_nat (Z.log2 n))%nat.
Proof.
  intros Hk Hn.
  assert (k <= Z.log2 n).
  { rewrite <- (Z.log2_pow2 k) by lia. apply Z.log2_le_mono. exact Hn. }
  lia.
Qed.

Lemma format_x_1 (n : Z) : 0 <= n < 16 -> format_x n = [hexdigit n].
Proof.
  intros H. unfold format_x.
  rewrite hex_digits_last by (apply Z.div_small; lia).
  rewrite Z.mod_small by lia. reflexivity.
Qed.

Lemma format_x_2 (n : Z) : 16 <= n < 256 -> format_x n = hex2 n.
Proof.
  intros H. unfold format_x.
  pose proof (log2_fuel n 4 ltac:(lia) ltac:(simpl; lia)) as F.
  destruct (Z.to_nat (Z.log2 n)) as [|f] eqn:E; [simpl in F; lia|].
  assert (1 <= n / 16 < 16) by (split; [apply Z.div_le_lower_bound | apply Z.div_lt_upper_bound]; lia).
  rewrite hex_digits_more by lia.
  rewrite hex_digits_last by (apply Z.div_small; lia).
  unfold hex2. rewrite (Z.mod_small (n / 16)) by lia. reflexivity.
Qed.

Lemma format_x_3 (n : Z) :
  256 <= n < 4096 ->
  format_x n = [hexdigit (n / 256); hexdigit (n / 16 mod 16); hexdigit (n mod 16)].
Proof.
  intros H. unfold format_x.
  pose proof (log2_fuel n 8 ltac:(lia) ltac:(simpl; lia)) as F.
  destruct (Z.to_nat (Z.log2 n)) as [|[|f]] eqn:E; [simpl in F; lia ..|].
  assert (16 <= n / 16 < 256) by (split; [apply Z.div_le_lower_bound | apply Z.div_lt_upper_bound]; lia).
  assert (1 <= n / 16 / 16 < 16) by (split; [apply Z.div_le_lower_bound | apply Z.div_lt_upper_bound]; lia).
  rewrite hex_digits_more by lia.
  rewrite hex_digits_more by lia.
  rewrite hex_digits_last by (apply Z.div_small; lia).
  rewrite (Z.mod_small (n / 16 / 16)) by lia.
  rewrite Z.div_div by lia. reflexivity.
Qed.

Lemma format_x_4 (n : Z) : 4096 <= n < 65536 -> format_x n = hex4 n.
Proof.
  intros H. unfold format_x.
  pose proof (log2_fuel n 12 ltac:(lia) ltac:(simpl; lia)) as F.
  destruct (Z.to_nat (Z.log2 n)) as [|[|[|f]]] eqn:E; [simpl in F; lia ..|].
  assert (256 <= n / 16 < 4096) by (split; [apply Z.div_le_lower_bound | apply Z.div_lt_upper_bound]; lia).
  assert (16 <= n / 16 / 16 < 256) by (split; [apply Z.div_le_lower_bound | apply Z.div_lt_upper_bound]; lia).
  assert (1 <= n / 16 / 16 / 16 < 16) by (split; [apply Z.div_le_lower_bound | apply Z.div_lt_upper_bound]; lia).
  rewrite hex_digits_more by lia.
  rewrite hex_digits_more by lia.
  rewrite hex_digits_more by lia.
  rewrite hex_digits_last by (apply Z.div_small; lia).
  rewrite (Z.mod_small (n / 16 / 16 / 16)) by lia.
  unfold hex4. rewrite !Z.div_div by lia. reflexivity.
Qed.

Lemma format_0x_2 (n : Z) : 0 <= n < 256 -> format_0x 2 n = hex2 n.
Proof.
  intros H. unfold format_0x.
  destruct (Z_lt_ge_dec n 16) as [L|G].
  - rewrite format_x_1 by lia. simpl. unfold hex2.
    rewrite Z.div_small, Z.mod_small by lia. reflexivity.
  - rewrite format_x_2 by lia. reflexivity.
Qed.

Lemma format_0x_4 (n : Z) : 0 <= n < 65536 -> format_0x 4 n = hex4 n.
Proof.
  intros H. unfold format_0x.
  destruct (Z_lt_ge_dec n 16) as [L|G].
  { rewrite format_x_1 by lia. simpl. unfold hex4.
    rewrite !Z.div_small, !Z.mod_small by lia. reflexivity. }
  destruct (Z_lt_ge_dec n 256) as [L1|G1].
  { rewrite format_x_2 by lia. simpl. unfold hex4, hex2.
    assert (n / 16 < 16) by (apply Z.div_lt_upper_bound; lia).
    assert (0 <= n / 16) by (apply Z.div_pos; lia).
    rewrite (Z.div_small n 4096), (Z.div_small n 256) by lia.
    rewrite (Z.mod_small (n / 16)) by lia. reflexivity. }
  destruct (Z_lt_ge_dec n 4096) as [L2|G2].
  { rewrite format_x_3 by lia. simpl. unfold hex4.
    assert (n / 256 < 16) by (apply Z.div_lt_upper_bound; lia).
    assert (0 <= n / 256) by (apply Z.div_pos; lia).
    rewrite (Z.div_small n 4096) by lia.
    rewrite (Z.mod_small (n / 256)) by lia. reflexivity. }
  rewrite format_x_4 by lia. reflexivity.
Qed.

(** ** The display encoder on one code point *)

Lemma printable_table (n : nat) :
  (n < 128)%nat ->
  nth n printable 0 =
  if ((n =? 9) || (n =? 10) || (n =? 13) || ((32 <=? n) && (n <=? 126)))%nat
  then 1 else 0.
Proof.
  intros H.
  do 128 (destruct n as [|n]; [reflexivity|]).
  lia.
Qed.

Lemma printable_yes (cp : Z) :
  0x20 <= cp <= 0x7E \/ cp = TAB \/ cp = CR \/ cp = LF ->
  nth (Z.to_nat cp) printable 0 = 1.
Proof.
  unfold TAB, CR, LF. intros H.
  rewrite printable_table by lia.
  destruct ((Z.to_nat cp =? 9) || (Z.to_nat cp =? 10) || (Z.to_nat cp =? 13)
            || ((32 <=? Z.to_nat cp) && (Z.to_nat cp <=? 126)))%nat eqn:E;
    [reflexivity|].
  repeat (apply orb_false_elim in E; destruct E as [E ?]).
  apply andb_false_iff in H0.
  repeat match goal with
         | X : (_ =? _)%nat = false |- _ => apply Nat.eqb_neq in X
         | X : (_ <=? _)%nat = false |- _ => apply Nat.leb_gt in X
         end.
  destruct H0 as [X|X]; [apply Nat.leb_gt in X | apply Nat.leb_gt in X]; lia.
Qed.

Lemma printable_no (cp : Z) :
  0 <= cp < 0x80 ->
  ~ (0x20 <= cp <= 0x7E \/ cp = TAB \/ cp = CR \/ cp = LF) ->
  nth (Z.to_nat cp) printable 0 = 0.
Proof.
  unfold TAB, CR, LF. intros R H.
  rewrite printable_table by lia.
  destruct ((Z.to_nat cp =? 9) || (Z.to_nat cp =? 10) || (Z.to_nat cp =? 13)
            || ((32 <=? Z.to_nat cp) && (Z.to_nat cp <=? 126)))%nat eqn:E;
    [|reflexivity].
  exfalso. apply H.
  repeat (apply orb_true_iff in E; destruct E as [E|E]).
  - apply Nat.eqb_eq in E. lia.
  - apply Nat.eqb_eq in E. lia.
  - apply Nat.eqb_eq in E. lia.
  - apply andb_true_iff in E. destruct E as [A B].
    apply Nat.leb_le in A. apply Nat.leb_le in B. lia.
Qed.

Lemma surrogate_bits (v : Z) :
  0 <= v < 0x100000 ->
  Z.land (Z.shiftr (Z.land v 0xFFC00) 10) 0x3FF = Z.shiftr v 10
  /\ 0 <= Z.shiftr v 10 < 0x400
  /\ 0 <= Z.land v 0x3FF < 0x400.
Proof.
  intros H.
  assert (S10 : Z.shiftr v 10 = v / 1024) by (rewrite Z.shiftr_div_pow2 by lia; reflexivity).
  assert (B : 0 <= v / 1024 < 1024)
    by (split; [apply Z.div_pos | apply Z.div_lt_upper_bound]; lia).
  assert (M : forall x, Z.land x 0x3FF = x mod 1024)
    by (intros x; change 0x3FF with (Z.ones 10); rewrite Z.land_ones by lia; reflexivity).
  repeat split.
  - rewrite Z.shiftr_land.
    change (Z.shiftr 0xFFC00 10) with 0x3FF.
    rewrite <- Z.land_assoc, Z.land_diag, M, S10.
    apply Z.mod_small. exact B.
  - lia.
  - lia.
  - rewrite M. apply Z.mod_pos_bound. lia.
  - rewrite M. apply Z.mod_pos_bound. lia.
Qed.

(** C3: for a code point of the supplementary planes the surrogate pair of
    consoleFormat ([hi10], [lo10]) is the pair of the reference formula
    [0xD800 + (v >> 10)], [0xDC00 + (v & 0x3FF)] with [v = cp - 0x10000];
    the high half lies in [0xD800,0xDBFF], the low half in [0xDC00,0xDFFF]. *)
Theorem surrogate_pair_matches_reference (cp : Z) :
  0x10000 <= cp <= 0x10FFFF ->
  hi10 cp = spec_high cp /\ lo10 cp = spec_low cp
  /\ 0xD800 <= hi10 cp <= 0xDBFF /\ 0xDC00 <= lo10 cp <= 0xDFFF.
Proof.
  intros H. unfold hi10, lo10, spec_high, spec_low.
  destruct (surrogate_bits (cp - 0x10000) ltac:(lia)) as (E & Bh & Bl).
  cbv zeta. rewrite E. lia.
Qed.

Lemma surrogate_pair_matches_reference_witness :
  hi10 0x1F600 = spec_high 0x1F600 /\ lo10 0x1F600 = spec_low 0x1F600
  /\ 0xD800 <= hi10 0x1F600 <= 0xDBFF /\ 0xDC00 <= lo10 0x1F600 <= 0xDFFF.
Proof.
  apply (surrogate_pair_matches_reference 0x1F600). lia.
Defined.


(** ** The codec: decoding what [encode] produced *)


Lemma decode_with_cons (h : bytes -> pystr) (ch : Z) (r1 : bytes) :
  decode_with h (ch :: r1) =
  if ch <? 0x80 then ch :: decode_with h r1
  else if ch <? 0xC2 then h [ch] ++ decode_with h r1
  else if ch <? 0xE0 then
    match r1 with
    | [] => h [ch]
    | ch2 :: r2 =>
        if is_cont ch2
        then ((ch - 0xC0) * 64 + (ch2 - 0x80)) :: decode_with h r2
        else h [ch] ++ decode_with h r1
    end
  else if ch <? 0xF0 then
    match r1 with
    | [] => h [ch]
    | ch2 :: r2 =>
        if negb (is_cont ch2)
           || (if ch2 <? 0xA0 then ch =? 0xE0 else ch =? 0xED)
        then h [ch] ++ decode_with h r1
        else
          match r2 with
          | [] => h [ch; ch2]
          | ch3 :: r3 =>
              if is_cont ch3
              then ((ch - 0xE0) * 4096 + (ch2 - 0x80) * 64 + (ch3 - 0x80))
                     :: decode_with h r3
              else h [ch; ch2] ++ decode_with h r2
          end
    end
  else if ch <? 0xF5 then
    match r1 with
    | [] => h [ch]
    | ch2 :: r2 =>
        if negb (is_cont ch2)
           || (if ch2 <? 0x90 then ch =? 0xF0 else ch =? 0xF4)
        then h [ch] ++ decode_with h r1
        else
          match r2 with
          | [] => h [ch; ch2]
          | ch3 :: r3 =>
              if negb (is_cont ch3)
              then h [ch; ch2] ++ decode_with h r2
              else
                match r3 with
                | [] => h [ch; ch2; ch3]
                | ch4 :: r4 =>
                    if is_cont ch4
                    then ((ch - 0xF0) * 262144 + (ch2 - 0x80) * 4096
                          + (ch3 - 0x80) * 64 + (ch4 - 0x80))
                           :: decode_with h r4
                    else h [ch; ch2; ch3] ++ decode_with h r3
                end
          end
    end
  else h [ch] ++ decode_with h r1.
Proof.
  destruct r1 as [|ch2 [|ch3 [|ch4 r4]]]; reflexivity.
Qed.

Lemma is_cont_enc (x : Z) : 0 <= x < 64 -> is_cont (0x80 + x) = true.
Proof.
  intros H. unfold is_cont. apply andb_true_iff. split.
  - apply Z.leb_le. lia.
  - apply Z.ltb_lt. lia.
Qed.

(** The cases of [encode_char], with the range of the code point. *)
Lemma encode_char_cases (c : Z) (bc : bytes) :
  encode_char c = Some bc ->
  (0 <= c < 0x80 /\ bc = [c])
  \/ (0x80 <= c < 0x800 /\ bc = [0xC0 + c / 64; 0x80 + c mod 64])
  \/ (0x800 <= c < 0x10000 /\ ~ (0xD800 <= c <= 0xDFFF)
      /\ bc = [0xE0 + c / 4096; 0x80 + c / 64 mod 64; 0x80 + c mod 64])
  \/ (0x10000 <= c < 0x110000
      /\ bc = [0xF0 + c / 262144; 0x80 + c / 4096 mod 64;
               0x80 + c / 64 mod 64; 0x80 + c mod 64]).
Proof.
  unfold encode_char. intros H.
  destruct (Z.ltb_spec c 0); [discriminate|].
  destruct (Z.ltb_spec c 0x80).
  { injection H as <-. left. split; [lia | reflexivity]. }
  destruct (Z.ltb_spec c 0x800).
  { injection H as <-. right. left. split; [lia | reflexivity]. }
  destruct (Z.ltb_spec c 0x10000).
  { destruct ((0xD800 <=? c) && (c <=? 0xDFFF)) eqn:E; [discriminate|].
    injection H as <-. right. right. left.
    apply andb_false_iff in E.
    repeat split; lia. }
  destruct (Z.ltb_spec c 0x110000); [|discriminate].
  injection H as <-. right. right. right. split; [lia | reflexivity].
Qed.

(** [encode_char] succeeds exactly on the Unicode scalar values. *)
Lemma encode_char_scalar (c : Z) :
  (exists bc, encode_char c = Some bc) <-> scalar c.
Proof.
  unfold scalar. split.
  - intros [bc H].
    destruct (encode_char_cases c bc H)
      as [(R & _) | [(R & _) | [(R & NS & _) | (R & _)]]]; lia.
  - intros [R NS]. unfold encode_char.
    destruct (Z.ltb_spec c 0); [lia|].
    destruct (Z.ltb_spec c 0x80); [eauto|].
    destruct (Z.ltb_spec c 0x800); [eauto|].
    destruct (Z.ltb_spec c 0x10000).
    + destruct ((0xD800 <=? c) && (c <=? 0xDFFF)) eqn:E; [|eauto].
      apply andb_true_iff in E. destruct E as [A B].
      apply Z.leb_le in A. apply Z.leb_le in B. lia.
    + destruct (Z.ltb_spec c 0x110000); [eauto | lia].
Qed.

Lemma decode_encode_char (h : bytes -> pystr) (c : Z) (bc rest : bytes) :
  encode_char c = Some bc ->
  decode_with h (bc ++ rest) = c :: decode_with h rest.
Proof.
  intros H.
  destruct (encode_char_cases c bc H)
    as [(R & ->) | [(R & ->) | [(R & NS & ->) | (R & ->)]]];
    cbn [app]; rewrite decode_with_cons.
  - ltb_true c 0x80. reflexivity.
  - ltb_false (0xC0 + c / 64) 0x80.
    ltb_false (0xC0 + c / 64) 0xC2.
    ltb_true (0xC0 + c / 64) 0xE0.
    rewrite is_cont_enc by (apply Z.mod_pos_bound; lia).
    f_equal. dm.
  - ltb_false (0xE0 + c / 4096) 0x80.
    ltb_false (0xE0 + c / 4096) 0xC2.
    ltb_false (0xE0 + c / 4096) 0xE0.
    ltb_true (0xE0 + c / 4096) 0xF0.
    rewrite !is_cont_enc by (apply Z.mod_pos_bound; lia).
    replace (if 0x80 + c / 64 mod 64 <? 0xA0
             then 0xE0 + c / 4096 =? 0xE0 else 0xE0 + c / 4096 =? 0xED)
      with false.
    2:{ symmetry. destruct (Z.ltb_spec (0x80 + c / 64 mod 64) 0xA0);
          apply Z.eqb_neq; dm. }
    cbn [negb orb]. f_equal. dm.
  - ltb_false (0xF0 + c / 262144) 0x80.
    ltb_false (0xF0 + c / 262144) 0xC2.
    ltb_false (0xF0 + c / 262144) 0xE0.
    ltb_false (0xF0 + c / 262144) 0xF0.
    ltb_true (0xF0 + c / 262144) 0xF5.
    rewrite !is_cont_enc by (apply Z.mod_pos_bound; lia).
    replace (if 0x80 + c / 4096 mod 64 <? 0x90
             then 0xF0 + c / 262144 =? 0xF0 else 0xF0 + c / 262144 =? 0xF4)
      with false.
    2:{ symmetry. destruct (Z.ltb_spec (0x80 + c / 4096 mod 64) 0x90);
          apply Z.eqb_neq; dm. }
    cbn [negb orb]. f_equal. dm.
Qed.

Lemma encode_cons (c : Z) (s : pystr) (bs : bytes) :
  encode (c :: s) = Some bs ->
  exists bc bs', encode_char c = Some bc /\ encode s = Some bs' /\ bs = bc ++ bs'.
Proof.
  simpl. destruct (encode_char c) as [bc|]; [|discriminate].
  destruct (encode s) as [bs'|]; [|discriminate].
  intros H. injection H as <-. eauto.
Qed.

Lemma decode_encode (h : bytes -> pystr) (s : pystr) :
  forall bs rest, encode s = Some bs ->
  decode_with h (bs ++ rest) = s ++ decode_with h rest.
Proof.
  induction s as [|c s IH]; intros bs rest H.
  - injection H as <-. reflexivity.
  - apply encode_cons in H. destruct H as (bc & bs' & Hc & Hs & ->).
    rewrite <- app_assoc.
    rewrite (decode_encode_char h c bc _ Hc).
    rewrite (IH bs' rest Hs). reflexivity.
Qed.

Lemma consoleFormat_app (s : pystr) (b1 b2 : bytes) :
  encode s = Some b1 ->
  consoleFormat (b1 ++ b2) = consoleFormat b1 ++ consoleFormat b2.
Proof.
  intros H. unfold consoleFormat.
  assert (D : decode_with backslashreplace b1 = s).
  { rewrite <- (app_nil_r b1), (decode_encode _ s b1 [] H). apply app_nil_r. }
  rewrite (decode_encode _ s b1 b2 H), D. apply flat_map_app.
Qed.

(** ** The display encoder on the encoding of a code point *)

(** C2: consoleFormat's rendering of one code point of [0, 0x10FFFF] is a
    total function with these values: printable ASCII, TAB, CR and LF and
    the code points 0x80..0x513 are emitted unchanged; the other code points
    below 0x80 as [\xhh], two lowercase hexadecimal digits; 0x514..0xFFFF as
    [\uhhhh]; 0x10000..0x10FFFF as the surrogate pair [\uhhhh\uhhhh].  The
    rendering of a code point is what [consoleFormat] returns on its UTF-8
    encoding. *)
Theorem consoleFormat_codepoint (cp : Z) :
  0 <= cp <= 0x10FFFF ->
  (0x20 <= cp <= 0x7E \/ cp = TAB \/ cp = CR \/ cp = LF -> formatChar cp = [cp])
  /\ (0x80 <= cp <= 0x513 -> formatChar cp = [cp])
  /\ (cp < 0x80 -> ~ (0x20 <= cp <= 0x7E \/ cp = TAB \/ cp = CR \/ cp = LF) ->
      formatChar cp = lit "\x" ++ hex2 cp)
  /\ (0x514 <= cp <= 0xFFFF -> formatChar cp = lit "\u" ++ hex4 cp)
  /\ (0x10000 <= cp <= 0x10FFFF ->
      formatChar cp
      = lit "\u" ++ hex4 (spec_high cp) ++ lit "\u" ++ hex4 (spec_low cp))
  /\ (forall bs : bytes,
        encode_char cp = Some bs -> consoleFormat bs = formatChar cp).
Proof.
  intros R.
  assert (B : forall bs : bytes,
             encode_char cp = Some bs -> consoleFormat bs = formatChar cp).
  { intros bs E. unfold consoleFormat.
    rewrite <- (app_nil_r bs), (decode_encode_char _ cp bs [] E).
    simpl. apply app_nil_r. }
  unfold formatChar. repeat split; [| | | | |exact B].
  - intros P.
    assert (cp < 0x80) by (unfold TAB, CR, LF in P; lia).
    destruct (cp <? 0x80) eqn:E; [|apply Z.ltb_ge in E; lia].
    rewrite (printable_yes cp P). reflexivity.
  - intros P.
    destruct (cp <? 0x80) eqn:E; [apply Z.ltb_lt in E; lia|].
    destruct (cp <=? 0x0513) eqn:E1; [reflexivity | apply Z.leb_gt in E1; lia].
  - intros L P.
    destruct (cp <? 0x80) eqn:E; [|apply Z.ltb_ge in E; lia].
    rewrite (printable_no cp) by (auto; lia).
    rewrite format_0x_2 by lia. reflexivity.
  - intros P.
    destruct (cp <? 0x80) eqn:E; [apply Z.ltb_lt in E; lia|].
    destruct (cp <=? 0x0513) eqn:E1; [apply Z.leb_le in E1; lia|].
    destruct (cp <? 0x10000) eqn:E2; [|apply Z.ltb_ge in E2; lia].
    rewrite format_0x_4 by lia. reflexivity.
  - intros P.
    destruct (cp <? 0x80) eqn:E; [apply Z.ltb_lt in E; lia|].
    destruct (cp <=? 0x0513) eqn:E1; [apply Z.leb_le in E1; lia|].
    destruct (cp <? 0x10000) eqn:E2; [apply Z.ltb_lt in E2; lia|].
    destruct (cp <? 0x110000) eqn:E3; [|apply Z.ltb_ge in E3; lia].
    destruct (surrogate_bits (cp - 0x10000) ltac:(lia)) as (E4 & Bh & Bl).
    assert (Eh : hi10 cp = spec_high cp)
      by (unfold hi10, spec_high; cbv zeta; rewrite E4; lia).
    assert (El : lo10 cp = spec_low cp) by (unfold lo10, spec_low; lia).
    rewrite Eh, El.
    rewrite !format_0x_4 by (unfold spec_high, spec_low; lia).
    reflexivity.
Qed.

Lemma consoleFormat_codepoint_witness :
  formatChar 0x20AC = lit "\u" ++ hex4 0x20AC.
Proof.
  destruct (consoleFormat_codepoint 0x20AC ltac:(lia)) as (_ & _ & _ & H & _).
  apply H. lia.
Defined.

(** ** The reassembly step *)


Lemma shiftr_div (x : Z) (k : Z) : 0 <= k -> Z.shiftr x k = x / 2 ^ k.
Proof. intros H. apply Z.shiftr_div_pow2. exact H. Qed.

Lemma cont_byte_enc (x : Z) : 0 <= x < 64 -> cont_byte (0x80 + x).
Proof.
  intros H. unfold cont_byte. rewrite shiftr_div by lia.
  change (2 ^ 6) with 64. dm.
Qed.

Lemma expectedCont_range (lead : Z) (lo hi : Z) (k : nat) :
  lo <= lead <= hi ->
  (0 <= lo /\ hi < 0x80 /\ k = 0%nat)
  \/ (0xC0 <= lo /\ hi <= 0xDF /\ k = 1%nat)
  \/ (0xE0 <= lo /\ hi <= 0xEF /\ k = 2%nat)
  \/ (0xF0 <= lo /\ hi <= 0xF7 /\ k = 3%nat) ->
  expectedCont lead = k /\ ~ cont_byte lead.
Proof.
  intros R C. unfold expectedCont, cont_byte.
  rewrite !shiftr_div by lia.
  change (2 ^ 6) with 64. change (2 ^ 5) with 32.
  change (2 ^ 4) with 16. change (2 ^ 3) with 8.
  destruct C as [(A & B & ->) | [(A & B & ->) | [(A & B & ->) | (A & B & ->)]]].
  - assert (lead / 32 < 4) by dm. assert (lead / 16 < 8) by dm.
    assert (lead / 8 < 16) by dm. assert (lead / 64 < 2) by dm.
    destruct (Z.eqb_spec (lead / 32) 6); [lia|].
    destruct (Z.eqb_spec (lead / 16) 14); [lia|].
    destruct (Z.eqb_spec (lead / 8) 30); [lia|].
    split; [reflexivity | lia].
  - assert (lead / 32 = 6) by dm. assert (lead / 64 = 3) by dm.
    destruct (Z.eqb_spec (lead / 32) 6); [|lia].
    split; [reflexivity | lia].
  - assert (lead / 32 = 7) by dm. assert (lead / 16 = 14) by dm.
    assert (lead / 64 = 3) by dm.
    destruct (Z.eqb_spec (lead / 32) 6); [lia|].
    destruct (Z.eqb_spec (lead / 16) 14); [|lia].
    split; [reflexivity | lia].
  - assert (lead / 32 = 7) by dm. assert (lead / 16 = 15) by dm.
    assert (lead / 8 = 30) by dm. assert (lead / 64 = 3) by dm.
    destruct (Z.eqb_spec (lead / 32) 6); [lia|].
    destruct (Z.eqb_spec (lead / 16) 14); [lia|].
    destruct (Z.eqb_spec (lead / 8) 30); [|lia].
    split; [reflexivity | lia].
Qed.

(** An encoded character is a lead byte followed by exactly the number of
    continuation bytes that the reader expects after that lead byte. *)
Lemma encode_char_shape (c : Z) (bc : bytes) :
  encode_char c = Some bc ->
  exists lead conts,
    bc = lead :: conts /\ ~ cont_byte lead /\ Forall cont_byte conts
    /\ expectedCont lead = List.length conts.
Proof.
  intros H.
  destruct (encode_char_cases c bc H)
    as [(R & ->) | [(R & ->) | [(R & NS & ->) | (R & ->)]]];
    eexists; eexists; (split; [reflexivity|]).
  - destruct (expectedCont_range c 0 0x7F 0%nat) as [E N]; [lia | left; lia |].
    repeat split; [exact N | constructor | exact E].
  - destruct (expectedCont_range (0xC0 + c / 64) 0xC0 0xDF 1%nat) as [E N];
      [dm | right; left; lia |].
    repeat split; [exact N | | exact E].
    repeat constructor; apply cont_byte_enc; apply Z.mod_pos_bound; lia.
  - destruct (expectedCont_range (0xE0 + c / 4096) 0xE0 0xEF 2%nat) as [E N];
      [dm | right; right; left; lia |].
    repeat split; [exact N | | exact E].
    repeat constructor; apply cont_byte_enc; apply Z.mod_pos_bound; lia.
  - destruct (expectedCont_range (0xF0 + c / 262144) 0xF0 0xF7 3%nat) as [E N];
      [dm | right; right; right; lia |].
    repeat split; [exact N | | exact E].
    repeat constructor; apply cont_byte_enc; apply Z.mod_pos_bound; lia.
Qed.

Lemma scan_back_le (bs : bytes) (i : nat) : (scan_back bs i <= i)%nat.
Proof.
  induction i as [|j IH]; simpl; [lia|].
  destruct (Z.shiftr (nth j bs 0) 6 =? 2); lia.
Qed.

Lemma scan_back_shape (pre : bytes) (lead : Z) (conts : bytes) (m : nat) :
  ~ cont_byte lead -> Forall cont_byte conts -> (m <= List.length conts)%nat ->
  scan_back (pre ++ lead :: conts) (S (List.length pre) + m) = S (List.length pre).
Proof.
  intros NL AC. induction m as [|m IH]; intros Hm.
  - rewrite Nat.add_0_r. simpl.
    rewrite nth_middle.
    destruct (Z.eqb_spec (Z.shiftr lead 6) 2) as [E|E]; [contradiction | reflexivity].
  - replace (S (List.length pre) + S m)%nat with (S (S (List.length pre) + m)) by lia.
    cbn [scan_back].
    replace (pre ++ lead :: conts) with ((pre ++ [lead]) ++ conts)
      by (rewrite <- app_assoc; reflexivity).
    rewrite app_nth2 by (rewrite length_app; cbn [List.length]; lia).
    replace (S (List.length pre) + m - List.length (pre ++ [lead]))%nat with m
      by (rewrite length_app; cbn [List.length]; lia).
    assert (C : cont_byte (nth m conts 0)).
    { rewrite Forall_forall in AC. apply AC. apply nth_In. lia. }
    unfold cont_byte in C. rewrite C. simpl Z.eqb. cbv iota.
    rewrite <- app_assoc. apply IH. lia.
Qed.

Lemma reassemble_shape (pre : bytes) (lead : Z) (conts : bytes) :
  ~ cont_byte lead -> Forall cont_byte conts ->
  reassemble (pre ++ lead :: conts) =
  if (List.length conts <? expectedCont lead)%nat
  then (pre, lead :: conts)
  else (pre ++ lead :: conts, []).
Proof.
  intros NL AC. unfold reassemble.
  assert (L : List.length (pre ++ lead :: conts)
              = (S (List.length pre) + List.length conts)%nat)
    by (rewrite length_app; cbn [List.length]; lia).
  rewrite L, (scan_back_shape pre lead conts _ NL AC (Nat.le_refl _)).
  rewrite nth_middle.
  replace (S (List.length pre) + List.length conts - S (List.length pre))%nat
    with (List.length conts) by lia.
  destruct (List.length conts <? expectedCont lead)%nat; [|reflexivity].
  rewrite firstn_app, firstn_all, Nat.sub_diag, app_nil_r.
  rewrite skipn_app, skipn_all, Nat.sub_diag. reflexivity.
Qed.

(** A non-empty encoded text ends with a complete character. *)
Lemma encode_last (s : pystr) :
  forall bs, encode s = Some bs -> bs <> [] ->
  exists pre lead conts,
    bs = pre ++ lead :: conts /\ ~ cont_byte lead /\ Forall cont_byte conts
    /\ expectedCont lead = List.length conts.
Proof.
  induction s as [|c s IH]; intros bs H NE.
  - injection H as <-. contradiction.
  - apply encode_cons in H. destruct H as (bc & bs' & Hc & Hs & ->).
    destruct bs' as [|b bs'].
    + destruct (encode_char_shape c bc Hc) as (lead & conts & -> & N & A & E).
      exists [], lead, conts. rewrite app_nil_r. auto.
    + destruct (IH (b :: bs') Hs ltac:(discriminate))
        as (pre & lead & conts & E0 & N & A & E).
      exists (bc ++ pre), lead, conts. rewrite E0, app_assoc. auto.
Qed.

Lemma reassemble_valid (s : pystr) (bs : bytes) :
  encode s = Some bs -> bs <> [] -> reassemble bs = (bs, []).
Proof.
  intros H NE.
  destruct (encode_last s bs H NE) as (pre & lead & conts & -> & N & A & E).
  rewrite (reassemble_shape pre lead conts N A), E, Nat.ltb_irrefl.
  reflexivity.
Qed.

Lemma reassemble_partial (s : pystr) (b1 : bytes) (c : Z) (bc : bytes) (k : nat) :
  encode s = Some b1 -> encode_char c = Some bc ->
  (0 < k < List.length bc)%nat ->
  reassemble (b1 ++ firstn k bc) = (b1, firstn k bc).
Proof.
  intros H1 Hc Hk.
  destruct (encode_char_shape c bc Hc) as (lead & conts & -> & N & A & E).
  destruct k as [|k]; [lia|]. cbn [firstn].
  cbn [List.length] in Hk.
  assert (A' : Forall cont_byte (firstn k conts)).
  { rewrite Forall_forall in *. intros x Hx. apply A.
    apply (In_nth _ _ 0) in Hx. destruct Hx as (i & Hi & <-).
    rewrite length_firstn in Hi.
    rewrite nth_firstn. replace (i <? k)%nat with true by (symmetry; apply Nat.ltb_lt; lia).
    apply nth_In. lia. }
  rewrite (reassemble_shape b1 lead (firstn k conts) N A'), E.
  rewrite length_firstn.
  replace (Nat.min k (List.length conts) <? List.length conts)%nat with true
    by (symmetry; apply Nat.ltb_lt; lia).
  reflexivity.
Qed.

(** Cutting an encoded text after [n] bytes: the cut falls between two
    characters, or [k] bytes into the encoding of some character. *)
Lemma encode_split (s : pystr) :
  forall bs n, encode s = Some bs -> (n <= List.length bs)%nat ->
  (exists s1 s2, encode s1 = Some (firstn n bs) /\ encode s2 = Some (skipn n bs))
  \/ (exists s1 b1 c bc s2 b2 k,
        encode s1 = Some b1 /\ encode_char c = Some bc /\ encode s2 = Some b2
        /\ (0 < k < List.length bc)%nat
        /\ firstn n bs = b1 ++ firstn k bc
        /\ skipn n bs = skipn k bc ++ b2).
Proof.
  induction s as [|c s IH]; intros bs n H Hn.
  - injection H as <-. left. exists [], [].
    rewrite firstn_nil, skipn_nil. auto.
  - pose proof H as H0.
    apply encode_cons in H. destruct H as (bc & bs' & Hc & Hs & ->).
    destruct (Nat.eq_dec n 0) as [->|N0].
    { left. exists [], (c :: s). auto. }
    destruct (Nat.lt_ge_cases n (List.length bc)) as [L|G].
    { right. exists [], [], c, bc, s, bs', n.
      repeat split; try assumption; try lia.
      - rewrite firstn_app.
        replace (n - List.length bc)%nat with O by lia.
        rewrite firstn_O, app_nil_r. reflexivity.
      - rewrite skipn_app.
        replace (n - List.length bc)%nat with O by lia.
        reflexivity. }
    rewrite length_app in Hn.
    assert (F : firstn n (bc ++ bs') = bc ++ firstn (n - List.length bc) bs').
    { rewrite firstn_app, firstn_all2 by lia. reflexivity. }
    assert (K : skipn n (bc ++ bs') = skipn (n - List.length bc) bs').
    { rewrite skipn_app, skipn_all2 by lia. reflexivity. }
    destruct (IH bs' (n - List.length bc)%nat Hs ltac:(lia))
      as [(s1 & s2 & E1 & E2) | (s1 & b1 & c' & bc' & s2 & b2 & k & E1 & Ec & E2 & Hk & Ef & Ek)].
    + left. exists (c :: s1), s2. rewrite F, K. split; [|exact E2].
      simpl. rewrite Hc, E1. reflexivity.
    + right. exists (c :: s1), (bc ++ b1), c', bc', s2, b2, k.
      repeat split; try assumption; try lia.
      * simpl. rewrite Hc, E1. reflexivity.
      * rewrite F, Ef, app_assoc. reflexivity.
      * rewrite K, Ek. reflexivity.
Qed.

(** ** One iteration of the reader loop *)

Lemma reader_bytesIn (t data : bytes) :
  match t with [] => data | _ :: _ => t ++ data end = t ++ data.
Proof. destruct t; reflexivity. Qed.

Lemma reader_iter_empty (cw : pystr -> write_result) (st : reader_state) (data : bytes) :
  trail st ++ data = [] ->
  reader_iter cw (Recv data) st
  = ({| trail := []; rlog := rlog st; screen := screen st;
        warnings := warnings st |}, None).
Proof.
  intros E. unfold reader_iter. rewrite reader_bytesIn, E. reflexivity.
Qed.

Lemma reader_iter_data (st : reader_state) (data out tr : bytes) :
  trail st ++ data <> [] ->
  reassemble (trail st ++ data) = (out, tr) ->
  reader_iter console_ok (Recv data) st
  = ({| trail := tr; rlog := log_write (rlog st) (trail st ++ data);
        screen := screen st ++ [consoleFormat out];
        warnings := warnings st |}, None).
Proof.
  intros NE R. unfold reader_iter. rewrite reader_bytesIn.
  destruct (trail st ++ data) as [|b bs] eqn:E; [contradiction|].
  rewrite R. reflexivity.
Qed.

(** An iteration on valid UTF-8 with nothing held back shows the whole
    input and holds nothing back. *)
Lemma reader_iter_valid (st : reader_state) (s : pystr) (data : bytes) :
  trail st = [] -> encode s = Some data ->
  exists st',
    reader_iter console_ok (Recv data) st = (st', None)
    /\ trail st' = []
    /\ List.concat (screen st') = List.concat (screen st) ++ consoleFormat data.
Proof.
  intros T H.
  destruct data as [|b bs].
  - eexists. split; [apply reader_iter_empty; rewrite T; reflexivity|].
    split; [reflexivity|]. simpl. rewrite app_nil_r. reflexivity.
  - eexists. split.
    + apply reader_iter_data; rewrite T; [discriminate|].
      apply (reassemble_valid s). exact H. discriminate.
    + split; [reflexivity|]. simpl.
      rewrite concat_app. simpl. rewrite app_nil_r. reflexivity.
Qed.

(** C1: a valid UTF-8 byte sequence cut at any byte offset into two chunks
    that the reader receives one after the other is displayed as
    consoleFormat displays the whole sequence: the texts written to the
    console, concatenated, are [consoleFormat] of the sequence, the reader
    is still running, and nothing is left held back. *)
Theorem reassembly_safety (bs : bytes) (n : nat) (log : LogWriter) :
  valid_utf8 bs -> (n <= List.length bs)%nat ->
  let run := rokuReaderThread console_ok
               [Recv (firstn n bs); Recv (skipn n bs)] (reader_init log) in
  snd run = Blocked
  /\ List.concat (screen (fst run)) = consoleFormat bs
  /\ trail (fst run) = [].
Proof.
  intros [s H] Hn run. subst run.
  pose proof (firstn_skipn n bs) as B.
  destruct (encode_split s bs n H Hn)
    as [(s1 & s2 & E1 & E2) | (s1 & b1 & c & bc & s2 & b2 & k & E1 & Ec & E2 & Hk & Ef & Ek)].
  - destruct (reader_iter_valid (reader_init log) s1 _ eq_refl E1)
      as (st1 & R1 & T1 & S1).
    destruct (reader_iter_valid st1 s2 _ T1 E2) as (st2 & R2 & T2 & S2).
    cbn [rokuReaderThread]. rewrite R1, R2. cbn [fst snd].
    repeat split; [|exact T2].
    rewrite S2, S1. simpl.
    transitivity (consoleFormat (firstn n bs ++ skipn n bs)); [|rewrite B; reflexivity].
    symmetry. apply (consoleFormat_app s1). exact E1.
  - rewrite Ef, Ek in *.
    assert (NE1 : trail (reader_init log) ++ b1 ++ firstn k bc <> []).
    { simpl. destruct k as [|k]; [lia|].
      destruct bc; [simpl in Hk; lia|]. destruct b1; discriminate. }
    pose proof (reader_iter_data (reader_init log) (b1 ++ firstn k bc) b1 (firstn k bc)
                  NE1 (reassemble_partial s1 b1 c bc k E1 Ec Hk)) as R1.
    set (st1 := {| trail := firstn k bc;
                   rlog := log_write (rlog (reader_init log))
                             (trail (reader_init log) ++ b1 ++ firstn k bc);
                   screen := screen (reader_init log) ++ [consoleFormat b1];
                   warnings := warnings (reader_init log) |}) in *.
    assert (V : encode (c :: s2) = Some (bc ++ b2))
      by (simpl; rewrite Ec, E2; reflexivity).
    assert (J : trail st1 ++ skipn k bc ++ b2 = bc ++ b2)
      by (simpl; rewrite app_assoc, firstn_skipn; reflexivity).
    assert (NE2 : trail st1 ++ skipn k bc ++ b2 <> []).
    { rewrite J. destruct bc; [simpl in Hk; lia | discriminate]. }
    assert (R2 : reassemble (trail st1 ++ skipn k bc ++ b2) = (bc ++ b2, [])).
    { rewrite J. apply (reassemble_valid (c :: s2)); [exact V|].
      destruct bc; [simpl in Hk; lia | discriminate]. }
    pose proof (reader_iter_data st1 (skipn k bc ++ b2) (bc ++ b2) [] NE2 R2) as R2'.
    cbn [rokuReaderThread]. rewrite R1, R2'. cbn [fst snd trail screen].
    repeat split.
    simpl. rewrite app_nil_r, <- B.
    rewrite <- app_assoc.
    rewrite (app_assoc (firstn k bc)), firstn_skipn.
    symmetry. apply (consoleFormat_app s1). exact E1.
Qed.

Lemma reassembly_safety_witness :
  let bs := [0x41; 0xE2; 0x82; 0xAC] in
  let run := rokuReaderThread console_ok
               [Recv (firstn 2 bs); Recv (skipn 2 bs)]
               (reader_init {| logFd := None |}) in
  snd run = Blocked
  /\ List.concat (screen (fst run)) = consoleFormat bs
  /\ trail (fst run) = [].
Proof.
  apply (reassembly_safety [0x41; 0xE2; 0x82; 0xAC] 2).
  - exists [0x41; 0x20AC]. reflexivity.
  - simpl. lia.
Defined.

(** ** The length of the held-back trail *)


Lemma scan_back_zero (bs : bytes) (i : nat) :
  (i <= List.length bs)%nat ->
  (scan_back bs i = O <-> all_cont (firstn i bs) = true).
Proof.
  induction i as [|j IH]; intros Hi.
  - simpl. split; reflexivity.
  - assert (F : firstn (S j) bs = firstn j bs ++ [nth j bs 0]).
    { rewrite <- (firstn_skipn j bs) at 1.
      rewrite firstn_app, length_firstn, firstn_firstn.
      replace (Nat.min (S j) j) with j by lia.
      replace (S j - Nat.min j (List.length bs))%nat with 1%nat by lia.
      f_equal.
      rewrite <- (firstn_skipn j bs) at 2.
      rewrite app_nth2 by (rewrite length_firstn; lia).
      rewrite length_firstn.
      replace (j - Nat.min j (List.length bs))%nat with O by lia.
      destruct (skipn j bs) as [|x xs] eqn:E; [|reflexivity].
      apply (f_equal (@List.length Z)) in E. rewrite length_skipn in E.
      simpl in E. lia. }
    rewrite F. unfold all_cont. rewrite forallb_app. cbn [forallb scan_back].
    destruct (Z.shiftr (nth j bs 0) 6 =? 2).
    + rewrite andb_true_r. apply IH. lia.
    + rewrite andb_false_r. split; discriminate.
Qed.

Lemma expectedCont_le (b : Z) : (expectedCont b <= 3)%nat.
Proof.
  unfold expectedCont.
  destruct (Z.shiftr b 5 =? 6); [lia|].
  destruct (Z.shiftr b 4 =? 14); [lia|].
  destruct (Z.shiftr b 3 =? 30); lia.
Qed.

Lemma reassemble_all_cont (bs : bytes) :
  all_cont bs = true -> reassemble bs = ([], bs).
Proof.
  intros H. unfold reassemble.
  assert (Z0 : scan_back bs (List.length bs) = O).
  { apply scan_back_zero; [lia|]. rewrite firstn_all. exact H. }
  rewrite Z0. reflexivity.
Qed.

Lemma reassemble_trail_le (bs : bytes) :
  all_cont bs = false -> (List.length (snd (reassemble bs)) <= 3)%nat.
Proof.
  intros H. unfold reassemble.
  pose proof (scan_back_le bs (List.length bs)) as L.
  destruct (scan_back bs (List.length bs)) as [|j] eqn:E.
  - apply scan_back_zero in E; [|lia]. rewrite firstn_all in E. congruence.
  - pose proof (expectedCont_le (nth j bs 0)) as X.
    destruct (Nat.ltb_spec (List.length bs - S j) (expectedCont (nth j bs 0)));
      cbn [snd].
    + rewrite length_skipn. lia.
    + simpl. lia.
Qed.

(** C8, amended: after an iteration of the reader on an input (held trail
    followed by the received bytes) that has a byte which is not a
    continuation byte, at most 3 bytes are held back; an input made of
    continuation bytes only is held back whole, whatever its length. *)
Theorem trail_length_invariant (cw : pystr -> write_result)
    (st : reader_state) (data : bytes) :
  let bytesIn := trail st ++ data in
  let st' := fst (reader_iter cw (Recv data) st) in
  (all_cont bytesIn = false -> (List.length (trail st') <= 3)%nat)
  /\ (all_cont bytesIn = true -> trail st' = bytesIn).
Proof.
  intros bytesIn st'. subst st'. unfold reader_iter.
  rewrite reader_bytesIn. fold bytesIn.
  destruct bytesIn as [|b bs] eqn:E.
  - split; [discriminate | reflexivity].
  - split; intros H.
    + pose proof (reassemble_trail_le (b :: bs) H) as L.
      destruct (reassemble (b :: bs)) as [out tr].
      destruct (cw (consoleFormat out)); exact L.
    + rewrite (reassemble_all_cont (b :: bs) H).
      destruct (cw (consoleFormat [])); reflexivity.
Qed.

Lemma trail_length_invariant_witness :
  (List.length (trail (fst (reader_iter console_ok (Recv [0x41; 0xE2; 0x82]%Z)
                              (reader_init {| logFd := None |})))) <= 3)%nat.
Proof.
  destruct (trail_length_invariant console_ok (reader_init {| logFd := None |})
              [0x41; 0xE2; 0x82]) as [H _].
  apply H. reflexivity.
Defined.

(** C8 as stated fails: four continuation bytes in one receive leave a
    trail of four bytes. *)
Lemma trail_longer_than_three :
  trail (fst (reader_iter console_ok (Recv [0x80; 0x80; 0x80; 0x80])
                (reader_init {| logFd := None |})))
  = [0x80; 0x80; 0x80; 0x80]
  /\ ~ (List.length (trail (fst (reader_iter console_ok
                                   (Recv [0x80; 0x80; 0x80; 0x80]%Z)
                                   (reader_init {| logFd := None |})))) <= 3)%nat.
Proof.
  split; [reflexivity|]. simpl. lia.
Qed.

(** ** Empty reads *)

(** C9 fails on the code: an empty read does not end the reader loop.
    After any number of empty reads the thread is still waiting in [recv],
    with its state untouched, and it goes on to display what arrives later;
    only an exception leaves the loop, whereas the console thread leaves its
    loop on the first empty read. *)
Theorem reader_survives_empty_recv (cw : pystr -> write_result)
    (n : nat) (log : LogWriter) :
  rokuReaderThread cw (repeat (Recv []) n) (reader_init log)
  = (reader_init log, Blocked)
  /\ rokuReaderThread console_ok (repeat (Recv []) n ++ [Recv [0x41]])
       (reader_init log)
     = ({| trail := []; rlog := log_write log [0x41];
           screen := [[0x41]]; warnings := O |}, Blocked)
  /\ rokuReaderThread cw (repeat (Recv []) n ++ [RecvRaises]) (reader_init log)
     = (reader_init log, Quit ReaderRecvFailed)
  /\ snd (consoleThread [Recv []] (console_init log)) = Quit ClientFinished.
Proof.
  repeat split.
  - induction n as [|n IH]; [reflexivity|]. simpl. exact IH.
  - induction n as [|n IH]; [reflexivity|]. simpl. exact IH.
  - induction n as [|n IH]; [reflexivity|]. simpl. exact IH.
Qed.

(** ** The log *)

Lemma log_write_nil (log : LogWriter) : log_write log [] = log.
Proof.
  destruct log as [[w|]]; unfold log_write; simpl; [rewrite app_nil_r|]; reflexivity.
Qed.

Lemma log_write_app (log : LogWriter) (a b : bytes) :
  log_write (log_write log a) b = log_write log (a ++ b).
Proof.
  destruct log as [[w|]]; unfold log_write; simpl; [rewrite app_assoc|]; reflexivity.
Qed.

Lemma reassemble_nil : reassemble [] = ([], []).
Proof. reflexivity. Qed.

Lemma reader_log_complete (cw : pystr -> write_result) (chunks : list bytes) :
  forall st st',
  trail st = [] ->
  Forall (fun c => snd (reassemble c) = []) chunks ->
  rokuReaderThread cw (map Recv chunks) st = (st', Blocked) ->
  rlog st' = log_write (rlog st) (List.concat chunks).
Proof.
  induction chunks as [|c chunks IH]; intros st st' T F R.
  - simpl in R. injection R as <-. simpl. symmetry. apply log_write_nil.
  - inversion F as [|? ? Hc F']; subst.
    cbn [map rokuReaderThread] in R.
    unfold reader_iter in R. rewrite reader_bytesIn, T in R. cbn [app] in R.
    destruct c as [|b bs].
    + apply IH in R; [|reflexivity|exact F']. cbn [rlog] in R.
      simpl. exact R.
    + destruct (reassemble (b :: bs)) as [out tr] eqn:E. cbn [snd] in Hc. subst tr.
      destruct (cw (consoleFormat out)); [| |discriminate];
        apply IH in R; try reflexivity; try exact F'; cbn [rlog] in R;
        rewrite R, log_write_app; reflexivity.
Qed.

Lemma relay_keeps (lines : list pystr) :
  forall st st' ok, relay lines st = (st', ok) ->
  clog st' = clog st /\ charBuf st' = charBuf st.
Proof.
  induction lines as [|l lines IH]; intros st st' ok H.
  - injection H as <- <-. auto.
  - cbn [relay] in H. destruct (encode l) as [b|].
    + apply IH in H. exact H.
    + injection H as <- <-. auto.
Qed.

Lemma frame_lines_clog (st st' : console_state) (q : option console_quit) :
  frame_lines st = (st', q) -> clog st' = clog st.
Proof.
  unfold frame_lines. intros H.
  destruct (relay (reLines_findall (charBuf st)) st) as [st1 ok] eqn:E.
  apply relay_keeps in E. destruct E as [E _].
  destruct ok.
  - destruct (reTrail_search (charBuf st1)); injection H as <- <-; exact E.
  - injection H as <- <-. exact E.
Qed.

Lemma consoleThread_iter_clog (b : Z) (bs : bytes) (st st' : console_state)
    (q : option console_quit) :
  consoleThread_iter (Recv (b :: bs)) st = (st', q) ->
  clog st' = log_write (clog st) ((b :: bs) ++ [LF]).
Proof.
  unfold consoleThread_iter. cbn [charBuf clog].
  destruct (contains quit_cmd _).
  { intros H. injection H as <- <-. reflexivity. }
  destruct (contains break_cmd _).
  { intros H. injection H as <- <-. reflexivity. }
  intros H. apply frame_lines_clog in H. exact H.
Qed.

Lemma console_log_chunks (chunks : list bytes) :
  forall st st',
  consoleThread (map Recv chunks) st = (st', Blocked) ->
  clog st' = log_write (clog st) (flat_map (fun c => c ++ [LF]) chunks).
Proof.
  induction chunks as [|c chunks IH]; intros st st' R.
  - simpl in R. injection R as <-. simpl. symmetry. apply log_write_nil.
  - cbn [map consoleThread] in R.
    destruct c as [|b bs]; [discriminate|].
    destruct (consoleThread_iter (Recv (b :: bs)) st) as [st1 [q|]] eqn:E;
      [discriminate|].
    apply consoleThread_iter_clog in E. apply IH in R.
    rewrite R, E, log_write_app. reflexivity.
Qed.

(** C7 fails on the code: the log is not an exact copy of what the Roku
    sent.  The reader writes to the log after it has put the held-back
    trail in front of the new bytes, and those held bytes were already
    logged with the receive that brought them.  For any two receives the
    log holds the first chunk, then again the bytes held back from it, then
    the second chunk; it equals the bytes received only when nothing was
    held back.  A two-byte character split over two receives, C3 then A9,
    is logged as C3 C3 A9. *)
Theorem reader_logs_held_bytes_twice (c1 c2 written : bytes) :
  let run := rokuReaderThread console_ok [Recv c1; Recv c2]
               (reader_init {| logFd := Some written |}) in
  snd run = Blocked
  /\ logFd (rlog (fst run)) = Some (written ++ c1 ++ snd (reassemble c1) ++ c2)
  /\ logFd (rlog (fst (rokuReaderThread console_ok [Recv [0xC3]; Recv [0xA9]]
                         (reader_init {| logFd := Some [] |}))))
     = Some [0xC3; 0xC3; 0xA9]
  /\ [0xC3; 0xC3; 0xA9] <> [0xC3] ++ [0xA9].
Proof.
  intros run. subst run.
  split; [|split; [|split; [reflexivity | discriminate]]].
  - cbn [rokuReaderThread]. unfold reader_iter. cbn [trail reader_init app].
    destruct c1 as [|b bs].
    + cbn [trail app]. destruct c2 as [|b2 bs2]; [reflexivity|].
      destruct (reassemble (b2 :: bs2)). reflexivity.
    + destruct (reassemble (b :: bs)) as [out tr]. cbn [console_ok trail].
      rewrite reader_bytesIn.
      destruct (tr ++ c2) as [|x xs]; [reflexivity|].
      destruct (reassemble (x :: xs)). reflexivity.
  - set (st0 := reader_init {| logFd := Some written |}).
    destruct c1 as [|b bs].
    + cbn [rokuReaderThread].
      rewrite (reader_iter_empty console_ok st0 [] eq_refl).
      rewrite reassemble_nil. cbn [snd app].
      destruct c2 as [|b2 bs2].
      * rewrite reader_iter_empty by reflexivity. cbn [fst rlog st0 reader_init logFd].
        rewrite app_nil_r. reflexivity.
      * destruct (reassemble (b2 :: bs2)) as [out tr] eqn:E.
        rewrite (reader_iter_data _ (b2 :: bs2) out tr) by (try discriminate; exact E).
        reflexivity.
    + destruct (reassemble (b :: bs)) as [out tr] eqn:E.
      cbn [rokuReaderThread snd].
      rewrite (reader_iter_data st0 (b :: bs) out tr) by (try discriminate; exact E).
      set (st1 := {| trail := tr |}).
      destruct (tr ++ c2) as [|x xs] eqn:J.
      * rewrite (reader_iter_empty console_ok st1 c2 J).
        cbn [fst rlog st1 st0 reader_init trail app log_write logFd].
        rewrite app_nil_r. reflexivity.
      * destruct (reassemble (x :: xs)) as [out2 tr2] eqn:E2.
        rewrite (reader_iter_data st1 c2 out2 tr2)
          by (cbn [st1 trail]; rewrite J; first [discriminate | exact E2]).
        cbn [fst rlog st1 st0 reader_init trail app log_write logFd].
        rewrite J, <- app_assoc. reflexivity.
Qed.

(** X18: the console thread logs what it receives from the input window,
    one LF added after each received chunk: once the thread has taken all
    the chunks and is waiting for the next one, the log holds, after what
    it held before, each chunk followed by LF, in order. *)
Theorem console_log_is_chunks_with_LF (chunks : list bytes) (written : bytes)
    (st' : console_state) :
  consoleThread (map Recv chunks) (console_init {| logFd := Some written |})
  = (st', Blocked) ->
  logFd (clog st') = Some (written ++ flat_map (fun c => c ++ [LF]) chunks).
Proof.
  intros R.
  rewrite (console_log_chunks chunks _ st' R). reflexivity.
Qed.

Lemma console_log_is_chunks_with_LF_witness :
  logFd (clog (fst (consoleThread
                      (map Recv [[0x61; 0x62]; [0x63; 13; 0x64; 13]])
                      (console_init {| logFd := Some [] |}))))
  = Some [0x61; 0x62; 10; 0x63; 13; 0x64; 13; 10].
Proof.
  apply (console_log_is_chunks_with_LF [[0x61; 0x62]; [0x63; 13; 0x64; 13]] []).
  reflexivity.
Defined.

(** ** Line framing *)


Lemma reTrail_match_no_CR (s : pystr) :
  forall m, reTrail_match s = Some m -> has_CR m = false.
Proof.
  induction s as [|c s IH]; intros m H.
  - injection H as <-. reflexivity.
  - cbn [reTrail_match] in H.
    destruct (Z.eqb_spec c CR) as [E|E]; [discriminate|].
    destruct (reTrail_match s) as [m'|]; [|discriminate].
    injection H as <-. unfold has_CR. cbn [existsb].
    destruct (Z.eqb_spec CR c) as [E'|E']; [congruence|].
    apply (IH m' eq_refl).
Qed.

(** [reTrail.search] always finds a match, and the match has no CR. *)
Lemma reTrail_search_no_CR (s : pystr) :
  exists t, reTrail_search s = Some t /\ has_CR t = false.
Proof.
  induction s as [|c s IH].
  - exists []. split; reflexivity.
  - cbn [reTrail_search].
    destruct (reTrail_match (c :: s)) as [m|] eqn:E.
    + exists m. split; [reflexivity|]. apply (reTrail_match_no_CR _ _ E).
    + exact IH.
Qed.

Lemma frame_lines_no_CR (st : console_state) :
  match frame_lines st with
  | (st', None) => has_CR (charBuf st') = false
  | (_, Some _) => True
  end.
Proof.
  unfold frame_lines.
  destruct (relay (reLines_findall (charBuf st)) st) as [st1 [|]]; [|exact I].
  destruct (reTrail_search_no_CR (charBuf st1)) as (t & -> & N).
  exact N.
Qed.

(** C4: from an empty buffer the input "abc\rdef\rgh" is framed into the
    lines "abc" and "def" (printed without their CR, queued with CR LF) and
    "gh" stays buffered; "i\r" then completes the line "ghi" and leaves the
    buffer empty.  Whenever the loop goes on after an iteration, the
    retained buffer has no CR. *)
Theorem line_framing :
  let st0 := console_init {| logFd := None |} in
  let r1 := consoleThread_iter
              (Recv (lit "abc" ++ [CR] ++ lit "def" ++ [CR] ++ lit "gh")) st0 in
  let r2 := consoleThread_iter (Recv (lit "i" ++ [CR])) (fst r1) in
  (snd r1 = None
   /\ printed (fst r1) = [lit "abc"; lit "def"]
   /\ rokuWriterQ (fst r1) = [lit "abc" ++ [CR; LF]; lit "def" ++ [CR; LF]]
   /\ charBuf (fst r1) = lit "gh")
  /\ (snd r2 = None
      /\ printed (fst r2) = [lit "abc"; lit "def"; lit "ghi"]
      /\ rokuWriterQ (fst r2)
         = [lit "abc" ++ [CR; LF]; lit "def" ++ [CR; LF]; lit "ghi" ++ [CR; LF]]
      /\ charBuf (fst r2) = [])
  /\ (forall buf : pystr,
        exists t, reTrail_search buf = Some t /\ has_CR t = false)
  /\ (forall (r : recv_result) (st : console_state),
        match consoleThread_iter r st with
        | (st', None) => has_CR (charBuf st') = false
        | (_, Some _) => True
        end).
Proof.
  split; [|split; [|split]].
  - vm_compute. auto.
  - vm_compute. auto.
  - exact reTrail_search_no_CR.
  - intros r st. unfold consoleThread_iter.
    destruct r as [[|b bs]|]; try exact I.
    destruct (contains quit_cmd _); [exact I|].
    destruct (contains break_cmd _); [reflexivity|].
    apply frame_lines_no_CR.
Qed.

(** ** Reserved commands *)

Lemma contains_unfold (needle hay : pystr) :
  contains needle hay
  = startswith needle hay
    || match hay with [] => false | _ :: hay' => contains needle hay' end.
Proof. destruct hay; reflexivity. Qed.

Lemma startswith_app (p post : pystr) : startswith p (p ++ post) = true.
Proof.
  induction p as [|a p IH]; [destruct post; reflexivity|].
  simpl. rewrite Z.eqb_refl. exact IH.
Qed.

Lemma contains_app (pre needle post : pystr) :
  contains needle (pre ++ needle ++ post) = true.
Proof.
  induction pre as [|a pre IH].
  - simpl app. rewrite contains_unfold, startswith_app. reflexivity.
  - simpl app. rewrite contains_unfold, IH. apply orb_true_r.
Qed.


Lemma consoleThread_iter_quit (b : Z) (bs : bytes) (st : console_state) :
  contains quit_cmd (charBuf (received (b :: bs) st)) = true ->
  consoleThread_iter (Recv (b :: bs)) st
  = (received (b :: bs) st, Some Terminating).
Proof.
  intros H. unfold consoleThread_iter. fold (received (b :: bs) st).
  rewrite H. reflexivity.
Qed.

Lemma consoleThread_iter_break (b : Z) (bs : bytes) (st : console_state) :
  contains quit_cmd (charBuf (received (b :: bs) st)) = false ->
  contains break_cmd (charBuf (received (b :: bs) st)) = true ->
  consoleThread_iter (Recv (b :: bs)) st
  = (put_nowait [0x03]
       (set_charBuf []
          (tPrint (lit "roky: Breaking into debugger") (received (b :: bs) st))),
     None).
Proof.
  intros Hq Hb. unfold consoleThread_iter. fold (received (b :: bs) st).
  rewrite Hq, Hb. reflexivity.
Qed.

Lemma consoleThread_iter_lines (b : Z) (bs : bytes) (st : console_state) :
  contains quit_cmd (charBuf (received (b :: bs) st)) = false ->
  contains break_cmd (charBuf (received (b :: bs) st)) = false ->
  consoleThread_iter (Recv (b :: bs)) st = frame_lines (received (b :: bs) st).
Proof.
  intros Hq Hb. unfold consoleThread_iter. fold (received (b :: bs) st).
  rewrite Hq, Hb. reflexivity.
Qed.

(** C5, amended: the reserved commands are recognized by exact,
    case-sensitive containment of "quit\r" and "break\r" in the buffer,
    before the line extraction: "quit\r" in the buffer ends the session,
    "break\r" without "quit\r" triggers the break, and a buffer with neither
    of the two lower-case texts goes through the ordinary line extraction;
    so "QUIT\r" and "Break\r" are relayed to the Roku as lines. *)
Theorem reserved_commands_case_sensitive (b : Z) (bs : bytes) (st : console_state) :
  let buf := charBuf (received (b :: bs) st) in
  let r := consoleThread_iter (Recv (b :: bs)) st in
  (contains quit_cmd buf = true -> snd r = Some Terminating)
  /\ (contains quit_cmd buf = false -> contains break_cmd buf = true ->
      snd r = None /\ rokuWriterQ (fst r) = rokuWriterQ st ++ [[0x03]])
  /\ (contains quit_cmd buf = false -> contains break_cmd buf = false ->
      r = frame_lines (received (b :: bs) st))
  /\ consoleThread_iter (Recv (lit "QUIT" ++ [CR])) (console_init {| logFd := None |})
     = ({| charBuf := []; clog := {| logFd := None |};
           rokuWriterQ := [lit "QUIT" ++ [CR; LF]]; printed := [lit "QUIT"] |},
        None)
  /\ consoleThread_iter (Recv (lit "Break" ++ [CR])) (console_init {| logFd := None |})
     = ({| charBuf := []; clog := {| logFd := None |};
           rokuWriterQ := [lit "Break" ++ [CR; LF]]; printed := [lit "Break"] |},
        None).
Proof.
  intros buf r. subst buf r. split; [|split; [|split; [|split]]].
  - intros Hq. rewrite (consoleThread_iter_quit b bs st Hq). reflexivity.
  - intros Hq Hb. rewrite (consoleThread_iter_break b bs st Hq Hb). split; reflexivity.
  - intros Hq Hb. apply consoleThread_iter_lines; assumption.
  - reflexivity.
  - reflexivity.
Qed.

Lemma reserved_commands_case_sensitive_witness :
  snd (consoleThread_iter (Recv (lit "quit" ++ [CR])) (console_init {| logFd := None |}))
  = Some Terminating.
Proof.
  destruct (reserved_commands_case_sensitive 113 (lit "uit" ++ [CR])
              (console_init {| logFd := None |})) as [H _].
  apply H. reflexivity.
Defined.

(** C5 as stated fails: "QUIT\r" does not end the session and "Break\r"
    sends no control byte; both are relayed as lines. *)
Lemma uppercase_commands_not_recognized :
  snd (consoleThread_iter (Recv (lit "QUIT" ++ [CR])) (console_init {| logFd := None |}))
  <> Some Terminating
  /\ rokuWriterQ (fst (consoleThread_iter (Recv (lit "QUIT" ++ [CR]))
                         (console_init {| logFd := None |})))
     = [lit "QUIT" ++ [CR; LF]]
  /\ rokuWriterQ (fst (consoleThread_iter (Recv (lit "Break" ++ [CR]))
                         (console_init {| logFd := None |})))
     = [lit "Break" ++ [CR; LF]]
  /\ rokuWriterQ (fst (consoleThread_iter (Recv (lit "Break" ++ [CR]))
                         (console_init {| logFd := None |})))
     <> [[0x03]].
Proof.
  repeat split; discriminate.
Qed.

(** C6, amended: when the accumulated buffer contains "break\r" and does not
    contain "quit\r", no line is relayed: the only message queued is the one
    byte 0x03, the only text printed is the break notice, and the buffer is
    cleared.  When the buffer contains "quit\r", the loop ends, whatever
    would be received next, and nothing is queued or printed. *)
Theorem command_interception (b : Z) (bs : bytes) (st : console_state) :
  let buf := charBuf st ++ decode_with replace (b :: bs) in
  let r := consoleThread_iter (Recv (b :: bs)) st in
  (contains break_cmd buf = true -> contains quit_cmd buf = false ->
   snd r = None
   /\ rokuWriterQ (fst r) = rokuWriterQ st ++ [[0x03]]
   /\ printed (fst r) = printed st ++ [lit "roky: Breaking into debugger"]
   /\ charBuf (fst r) = [])
  /\ (contains quit_cmd buf = true ->
      snd r = Some Terminating
      /\ rokuWriterQ (fst r) = rokuWriterQ st
      /\ printed (fst r) = printed st
      /\ forall rest : list recv_result,
           consoleThread (Recv (b :: bs) :: rest) st = (fst r, Quit Terminating)).
Proof.
  intros buf r. subst buf r. split.
  - intros Hb Hq.
    rewrite (consoleThread_iter_break b bs st Hq Hb). repeat split.
  - intros Hq.
    pose proof (consoleThread_iter_quit b bs st Hq) as E.
    rewrite E. repeat split.
    intros rest. cbn [consoleThread]. rewrite E. reflexivity.
Qed.

Lemma command_interception_witness :
  let r := consoleThread_iter (Recv (lit "break" ++ [CR]))
             (console_init {| logFd := None |}) in
  snd r = None
  /\ rokuWriterQ (fst r) = [] ++ [[0x03]]
  /\ printed (fst r) = [] ++ [lit "roky: Breaking into debugger"]
  /\ charBuf (fst r) = [].
Proof.
  destruct (command_interception 98 (lit "reak" ++ [CR])
              (console_init {| logFd := None |})) as [H _].
  apply H; reflexivity.
Defined.

(** C6 as stated fails: with "break\r" and "quit\r" both in the buffer the
    quit test comes first; no control byte is queued and the buffer is not
    cleared. *)
Lemma break_with_quit_sends_nothing :
  let chunk := lit "break" ++ [CR] ++ lit "quit" ++ [CR] in
  let r := consoleThread_iter (Recv chunk) (console_init {| logFd := None |}) in
  contains break_cmd (charBuf (console_init {| logFd := None |})
                        ++ decode_with replace chunk) = true
  /\ snd r = Some Terminating
  /\ rokuWriterQ (fst r) = []
  /\ charBuf (fst r) <> [].
Proof.
  repeat split. discriminate.
Qed.

(** C10, amended: the reserved commands are found anywhere in the
    accumulated buffer.  A buffer of the form [pre ++ "quit\r" ++ post]
    (such as the line "say quit\r") ends the session and queues nothing; a
    buffer of the form [pre ++ "break\r" ++ post] without "quit\r" triggers
    the break and is cleared whole, so that the complete lines before the
    command (such as "run\r" in "run\rbreak\r") are never queued. *)
Theorem commands_found_anywhere (b : Z) (bs : bytes) (st : console_state)
    (pre post : pystr) :
  let buf := charBuf st ++ decode_with replace (b :: bs) in
  let r := consoleThread_iter (Recv (b :: bs)) st in
  (buf = pre ++ quit_cmd ++ post ->
   snd r = Some Terminating /\ rokuWriterQ (fst r) = rokuWriterQ st)
  /\ (buf = pre ++ break_cmd ++ post -> contains quit_cmd buf = false ->
      snd r = None
      /\ charBuf (fst r) = []
      /\ rokuWriterQ (fst r) = rokuWriterQ st ++ [[0x03]])
  /\ consoleThread [Recv (lit "say quit" ++ [CR])] (console_init {| logFd := None |})
     = ({| charBuf := lit "say quit" ++ [CR]; clog := {| logFd := None |};
           rokuWriterQ := []; printed := [] |}, Quit Terminating)
  /\ consoleThread [Recv (lit "run" ++ [CR] ++ lit "break" ++ [CR])]
       (console_init {| logFd := None |})
     = ({| charBuf := []; clog := {| logFd := None |};
           rokuWriterQ := [[0x03]];
           printed := [lit "roky: Breaking into debugger"] |}, Blocked).
Proof.
  intros buf r. subst buf r. split; [|split; [|split; reflexivity]].
  - intros E.
    assert (Hq : contains quit_cmd (charBuf (received (b :: bs) st)) = true).
    { cbn [received charBuf]. rewrite E. apply contains_app. }
    rewrite (consoleThread_iter_quit b bs st Hq). split; reflexivity.
  - intros E Hq.
    assert (Hb : contains break_cmd (charBuf (received (b :: bs) st)) = true).
    { cbn [received charBuf]. rewrite E. apply contains_app. }
    rewrite (consoleThread_iter_break b bs st Hq Hb). repeat split.
Qed.

Lemma commands_found_anywhere_witness :
  let r := consoleThread_iter (Recv (lit "say quit" ++ [CR]))
             (console_init {| logFd := None |}) in
  snd r = Some Terminating /\ rokuWriterQ (fst r) = [].
Proof.
  destruct (commands_found_anywhere 115 (lit "ay quit" ++ [CR])
              (console_init {| logFd := None |}) (lit "say ") [])
    as [H _].
  apply H. reflexivity.
Defined.

(** C10 as stated fails: a buffer that has "break\r" and, further on,
    "quit\r" does not trigger the break; the session ends instead. *)
Lemma break_before_quit_is_not_a_break :
  let chunk := lit "run" ++ [CR] ++ lit "break" ++ [CR] ++ lit "say quit" ++ [CR] in
  let run := consoleThread [Recv chunk] (console_init {| logFd := None |}) in
  contains break_cmd (decode_with replace chunk) = true
  /\ snd run = Quit Terminating
  /\ rokuWriterQ (fst run) = []
  /\ charBuf (fst run) = chunk.
Proof.
  repeat split.
Qed.

(** ** More on the reassembly step *)

Lemma scan_back_stop (bs : bytes) (i j : nat) :
  scan_back bs i = S j ->
  (j < i)%nat /\ ~ cont_byte (nth j bs 0)
  /\ forall k, (j < k < i)%nat -> cont_byte (nth k bs 0).
Proof.
  induction i as [|i IH]; intros H; [discriminate|].
  cbn [scan_back] in H.
  destruct (Z.eqb_spec (Z.shiftr (nth i bs 0) 6) 2) as [E|E].
  - destruct (IH H) as (L & N & A).
    repeat split; [lia | exact N |].
    intros k Hk. destruct (Nat.eq_dec k i) as [->|D]; [exact E | apply A; lia].
  - injection H as <-. repeat split; [lia | exact E |]. intros k Hk. lia.
Qed.

Lemma skipn_nth_cons (bs : bytes) (j : nat) :
  (j < List.length bs)%nat -> skipn j bs = nth j bs 0 :: skipn (S j) bs.
Proof.
  revert j. induction bs as [|b bs IH]; intros j H; [simpl in H; lia|].
  destruct j as [|j]; [reflexivity|].
  cbn [skipn nth]. apply IH. simpl in H. lia.
Qed.

Lemma skipn_all_cont (bs : bytes) (j : nat) :
  (forall k, (j < k < List.length bs)%nat -> cont_byte (nth k bs 0)) ->
  Forall cont_byte (skipn (S j) bs).
Proof.
  intros A. apply Forall_forall. intros x Hx.
  apply (In_nth _ _ 0) in Hx. destruct Hx as (i & Hi & <-).
  rewrite length_skipn in Hi. rewrite nth_skipn.
  apply A. lia.
Qed.

(** X1: the reassembly step only cuts its input in two: the bytes passed on
    followed by the bytes held back are the input.  What is held back is
    nothing, or the whole of an input made of continuation bytes, or a
    non-continuation byte followed by fewer continuation bytes than that
    byte announces. *)
Theorem reassemble_cuts_input (bytesIn : bytes) :
  let out := fst (reassemble bytesIn) in
  let tr := snd (reassemble bytesIn) in
  out ++ tr = bytesIn
  /\ (tr = []
      \/ (out = [] /\ all_cont bytesIn = true)
      \/ exists lead conts,
           tr = lead :: conts /\ ~ cont_byte lead /\ Forall cont_byte conts
           /\ (List.length conts < expectedCont lead)%nat).
Proof.
  unfold reassemble.
  destruct (scan_back bytesIn (List.length bytesIn)) as [|j] eqn:E.
  - cbn [fst snd]. split; [reflexivity|]. right. left. split; [reflexivity|].
    apply scan_back_zero in E; [|lia]. rewrite firstn_all in E. exact E.
  - destruct (scan_back_stop _ _ _ E) as (L & N & A).
    destruct (Nat.ltb_spec (List.length bytesIn - S j) (expectedCont (nth j bytesIn 0)))
      as [Lt|Ge]; cbn [fst snd].
    + split; [apply firstn_skipn|]. right. right.
      exists (nth j bytesIn 0), (skipn (S j) bytesIn).
      repeat split.
      * apply skipn_nth_cons. exact L.
      * exact N.
      * apply skipn_all_cont. exact A.
      * rewrite length_skipn. exact Lt.
    + split; [apply app_nil_r | left; reflexivity].
Qed.

(** ** The reader loop on any chunking *)

Lemma firstn_length_app (l r : bytes) : firstn (List.length l) (l ++ r) = l.
Proof.
  rewrite firstn_app, Nat.sub_diag, firstn_all. simpl. apply app_nil_r.
Qed.

Lemma skipn_length_app (l r : bytes) : skipn (List.length l) (l ++ r) = r.
Proof.
  rewrite skipn_app, Nat.sub_diag, skipn_all. reflexivity.
Qed.

Lemma encode_char_length (c : Z) (bc : bytes) :
  encode_char c = Some bc -> (1 <= List.length bc <= 4)%nat.
Proof.
  intros H.
  destruct (encode_char_cases c bc H)
    as [(_ & ->) | [(_ & ->) | [(_ & _ & ->) | (_ & ->)]]]; simpl; lia.
Qed.

(** One iteration on a chunk, when the held trail followed by what is still
    to come is valid UTF-8. *)
Lemma reader_iter_stream (st : reader_state) (c rest : bytes) :
  valid_utf8 (trail st ++ c ++ rest) ->
  exists st',
    reader_iter console_ok (Recv c) st = (st', None)
    /\ valid_utf8 (trail st' ++ rest)
    /\ (rest = [] -> trail st' = [])
    /\ (List.length (trail st') <= 3)%nat
    /\ List.concat (screen st') ++ consoleFormat (trail st' ++ rest)
       = List.concat (screen st) ++ consoleFormat (trail st ++ c ++ rest).
Proof.
  intros [s V].
  rewrite app_assoc in V.
  pose proof (encode_split s _ (List.length (trail st ++ c)) V
                ltac:(rewrite !length_app; lia)) as Sp.
  rewrite firstn_length_app, skipn_length_app in Sp.
  destruct Sp as [(s1 & s2 & E1 & E2)
                 | (s1 & b1 & ch & bc & s2 & b2 & k & E1 & Ec & E2 & Hk & Ef & Ek)].
  - destruct (trail st ++ c) as [|b bs] eqn:J.
    + eexists. split; [apply reader_iter_empty; exact J|].
      cbn [trail screen]. repeat split.
      * exists s2. exact E2.
      * simpl. lia.
      * rewrite app_assoc, J. reflexivity.
    + eexists. split.
      * apply reader_iter_data; rewrite J; [discriminate|].
        apply (reassemble_valid s1); [exact E1 | discriminate].
      * cbn [trail screen]. repeat split.
        -- exists s2. exact E2.
        -- simpl. lia.
        -- rewrite concat_app. simpl. rewrite app_nil_r, <- app_assoc.
           f_equal. rewrite app_assoc, J.
           symmetry. apply (consoleFormat_app s1). exact E1.
  - assert (NE : trail st ++ c <> []).
    { rewrite Ef. destruct k as [|k]; [lia|].
      destruct bc; [simpl in Hk; lia|]. destruct b1; discriminate. }
    assert (R : reassemble (trail st ++ c) = (b1, firstn k bc))
      by (rewrite Ef; apply (reassemble_partial s1 b1 ch bc k E1 Ec Hk)).
    eexists. split; [apply (reader_iter_data st c b1 (firstn k bc) NE R)|].
    cbn [trail screen].
    assert (J : firstn k bc ++ rest = bc ++ b2)
      by (rewrite Ek, app_assoc, firstn_skipn; reflexivity).
    pose proof (encode_char_length ch bc Ec) as Lbc.
    repeat split.
    + exists (ch :: s2). rewrite J. simpl. rewrite Ec, E2. reflexivity.
    + intros ->. symmetry in Ek. apply app_eq_nil in Ek. destruct Ek as [Ek _].
      apply (f_equal (@List.length Z)) in Ek. rewrite length_skipn in Ek.
      simpl in Ek. lia.
    + rewrite length_firstn. lia.
    + rewrite concat_app. simpl. rewrite app_nil_r, <- app_assoc. f_equal.
      rewrite (app_assoc (trail st)), Ef, <- app_assoc, J.
      symmetry. apply (consoleFormat_app s1). exact E1.
Qed.

Lemma reader_thread_stream (chunks : list bytes) :
  forall (st : reader_state) (more : bytes),
  valid_utf8 (trail st ++ List.concat chunks ++ more) ->
  (List.concat chunks ++ more = [] -> trail st = []) ->
  (List.length (trail st) <= 3)%nat ->
  exists st',
    rokuReaderThread console_ok (map Recv chunks) st = (st', Blocked)
    /\ valid_utf8 (trail st' ++ more)
    /\ (more = [] -> trail st' = [])
    /\ (List.length (trail st') <= 3)%nat
    /\ List.concat (screen st') ++ consoleFormat (trail st' ++ more)
       = List.concat (screen st) ++ consoleFormat (trail st ++ List.concat chunks ++ more).
Proof.
  induction chunks as [|c chunks IH]; intros st more V Z3 L3.
  - exists st. simpl in *. repeat split; auto.
  - cbn [List.concat] in V. rewrite <- app_assoc in V.
    destruct (reader_iter_stream st c (List.concat chunks ++ more) V)
      as (st1 & R1 & V1 & Z1 & L1 & S1).
    destruct (IH st1 more V1 Z1 L1) as (st' & R' & V' & Z' & L' & S').
    exists st'. cbn [map rokuReaderThread]. rewrite R1.
    repeat split; auto.
    rewrite S', S1. cbn [List.concat]. rewrite <- app_assoc. reflexivity.
Qed.

(** X2: however a valid UTF-8 byte sequence is cut into chunks (any number
    of chunks, empty ones included), the reader that receives the chunks in
    order displays what consoleFormat shows for the whole sequence, is still
    running afterwards and holds nothing back. *)
Theorem reassembly_safety_any_chunking (chunks : list bytes) (log : LogWriter) :
  valid_utf8 (List.concat chunks) ->
  let run := rokuReaderThread console_ok (map Recv chunks) (reader_init log) in
  snd run = Blocked
  /\ List.concat (screen (fst run)) = consoleFormat (List.concat chunks)
  /\ trail (fst run) = [].
Proof.
  intros V run. subst run.
  destruct (reader_thread_stream chunks (reader_init log) [])
    as (st' & R & _ & Z & _ & S).
  - simpl. rewrite app_nil_r. exact V.
  - reflexivity.
  - simpl. lia.
  - rewrite R. cbn [fst snd]. specialize (Z eq_refl).
    repeat split; [|exact Z].
    rewrite Z in S. simpl in S. rewrite !app_nil_r in S. exact S.
Qed.

Lemma reassembly_safety_any_chunking_witness :
  let chunks := [[0x41; 0xF0]; [0x9F]; []; [0x98; 0x80; 0xC3]; [0xA9]] in
  let run := rokuReaderThread console_ok (map Recv chunks)
               (reader_init {| logFd := None |}) in
  snd run = Blocked
  /\ List.concat (screen (fst run)) = consoleFormat (List.concat chunks)
  /\ trail (fst run) = [].
Proof.
  apply (reassembly_safety_any_chunking
           [[0x41; 0xF0]; [0x9F]; []; [0x98; 0x80; 0xC3]; [0xA9]]).
  exists [0x41; 0x1F600; 0xE9]. reflexivity.
Defined.

(** X3: while the bytes received so far are the beginning of a valid UTF-8
    stream, the reader holds back at most 3 bytes, what it holds back
    followed by the rest of the stream is valid UTF-8, and what it has
    displayed followed by the rendering of the held bytes and the rest is
    the rendering of the whole stream. *)
Theorem reader_on_valid_stream (chunks : list bytes) (more : bytes) (log : LogWriter) :
  valid_utf8 (List.concat chunks ++ more) ->
  let run := rokuReaderThread console_ok (map Recv chunks) (reader_init log) in
  snd run = Blocked
  /\ (List.length (trail (fst run)) <= 3)%nat
  /\ valid_utf8 (trail (fst run) ++ more)
  /\ List.concat (screen (fst run)) ++ consoleFormat (trail (fst run) ++ more)
     = consoleFormat (List.concat chunks ++ more).
Proof.
  intros V run. subst run.
  destruct (reader_thread_stream chunks (reader_init log) more)
    as (st' & R & V' & _ & L & S).
  - exact V.
  - reflexivity.
  - simpl. lia.
  - rewrite R. cbn [fst snd]. repeat split; assumption.
Qed.

Lemma reader_on_valid_stream_witness :
  let run := rokuReaderThread console_ok (map Recv [[0x41; 0xE2]; [0x82]])
               (reader_init {| logFd := None |}) in
  snd run = Blocked
  /\ (List.length (trail (fst run)) <= 3)%nat
  /\ valid_utf8 (trail (fst run) ++ [0xAC])
  /\ List.concat (screen (fst run)) ++ consoleFormat (trail (fst run) ++ [0xAC]%Z)
     = consoleFormat (List.concat [[0x41; 0xE2]; [0x82]] ++ [0xAC]%Z).
Proof.
  apply (reader_on_valid_stream [[0x41; 0xE2]; [0x82]] [0xAC]).
  exists [0x41; 0x20AC]. reflexivity.
Defined.

Lemma reassemble_app (bytesIn out tr : bytes) :
  reassemble bytesIn = (out, tr) -> out ++ tr = bytesIn.
Proof.
  unfold reassemble.
  destruct (scan_back bytesIn (List.length bytesIn)) as [|j].
  - intros H. injection H as <- <-. reflexivity.
  - destruct (_ <? _)%nat; intros H; injection H as <- <-.
    + apply firstn_skipn.
    + apply app_nil_r.
Qed.

Lemma reader_thread_keeps_bytes (cw : pystr -> write_result) (chunks : list bytes) :
  (forall text, cw text <> RaisesOther) ->
  forall st : reader_state,
  exists st' outs,
    rokuReaderThread cw (map Recv chunks) st = (st', Blocked)
    /\ screen st' = screen st ++ map consoleFormat outs
    /\ List.concat outs ++ trail st' = trail st ++ List.concat chunks.
Proof.
  intros Hcw. induction chunks as [|c chunks IH]; intros st.
  - exists st, []. simpl. rewrite !app_nil_r. auto.
  - cbn [map rokuReaderThread]. unfold reader_iter. rewrite reader_bytesIn.
    destruct (trail st ++ c) as [|b bs] eqn:J.
    + destruct (IH {| trail := []; rlog := rlog st; screen := screen st;
                      warnings := warnings st |}) as (st' & outs & R & S & K).
      exists st', outs. repeat split; [exact R | exact S |].
      rewrite K. cbn [trail List.concat]. rewrite app_assoc, J. reflexivity.
    + destruct (reassemble (b :: bs)) as [out tr] eqn:E.
      apply reassemble_app in E.
      destruct (cw (consoleFormat out)) eqn:W; [| |destruct (Hcw _ W)].
      * destruct (IH {| trail := tr; rlog := log_write (rlog st) (b :: bs);
                        screen := screen st ++ [consoleFormat out];
                        warnings := warnings st |}) as (st' & outs & R & S & K).
        exists st', (out :: outs). repeat split; [exact R | |].
        -- rewrite S. cbn [screen map]. rewrite <- app_assoc. reflexivity.
        -- cbn [List.concat trail] in *. rewrite <- app_assoc, K, app_assoc, E.
           rewrite (app_assoc (trail st)), J. reflexivity.
      * destruct (IH {| trail := tr; rlog := log_write (rlog st) (b :: bs);
                        screen := screen st ++ [consoleFormat out];
                        warnings := S (warnings st) |}) as (st' & outs & R & S' & K).
        exists st', (out :: outs). repeat split; [exact R | |].
        -- rewrite S'. cbn [screen map]. rewrite <- app_assoc. reflexivity.
        -- cbn [List.concat trail] in *. rewrite <- app_assoc, K, app_assoc, E.
           rewrite (app_assoc (trail st)), J. reflexivity.
Qed.

(** X4: on any received chunks, valid UTF-8 or not, the reader loses no
    byte and keeps the order: as long as the console raises nothing but
    UnicodeEncodeError, the loop goes on, every text written to the console
    is consoleFormat of a piece of the input, and these pieces followed by
    the bytes still held back are exactly the bytes received. *)
Theorem reader_loses_no_byte (cw : pystr -> write_result)
    (chunks : list bytes) (log : LogWriter) :
  (forall text, cw text <> RaisesOther) ->
  let run := rokuReaderThread cw (map Recv chunks) (reader_init log) in
  snd run = Blocked
  /\ exists outs : list bytes,
       screen (fst run) = map consoleFormat outs
       /\ List.concat outs ++ trail (fst run) = List.concat chunks.
Proof.
  intros Hcw run. subst run.
  destruct (reader_thread_keeps_bytes cw chunks Hcw (reader_init log))
    as (st' & outs & R & S & K).
  rewrite R. cbn [fst snd]. split; [reflexivity|].
  exists outs. split; [exact S | exact K].
Qed.

Lemma reader_loses_no_byte_witness :
  let run := rokuReaderThread console_ok (map Recv [[0x80; 0x41]; [0xE2; 0x82]])
               (reader_init {| logFd := None |}) in
  snd run = Blocked
  /\ exists outs : list bytes,
       screen (fst run) = map consoleFormat outs
       /\ List.concat outs ++ trail (fst run)
          = List.concat [[0x80; 0x41]; [0xE2; 0x82]].
Proof.
  apply (reader_loses_no_byte console_ok [[0x80; 0x41]; [0xE2; 0x82]]).
  intros text. discriminate.
Defined.

(** ** What consoleFormat lets through *)

Lemma hexdigit_displayable (d : Z) : 0 <= d < 16 -> 0x20 <= hexdigit d <= 0x7E.
Proof.
  intros H. unfold hexdigit. destruct (Z.ltb_spec d 10); lia.
Qed.

Lemma hex2_displayable (n : Z) : 0 <= n < 256 -> Forall displayable (hex2 n).
Proof.
  intros H. unfold hex2.
  repeat apply Forall_cons; try apply Forall_nil;
    left; apply hexdigit_displayable; dm.
Qed.

Lemma hex4_displayable (n : Z) : 0 <= n < 65536 -> Forall displayable (hex4 n).
Proof.
  intros H. unfold hex4.
  repeat apply Forall_cons; try apply Forall_nil;
    left; apply hexdigit_displayable; dm.
Qed.

Lemma lit_escape_displayable :
  Forall displayable (lit "\x") /\ Forall displayable (lit "\u").
Proof.
  split; repeat apply Forall_cons; try apply Forall_nil; left; simpl; lia.
Qed.

Lemma formatChar_displayable (cp : Z) :
  0 <= cp <= 0x10FFFF -> Forall displayable (formatChar cp).
Proof.
  intros R. unfold formatChar.
  destruct lit_escape_displayable as [Lx Lu].
  destruct (Z.ltb_spec cp 0x80).
  - destruct (Z.eqb_spec (nth (Z.to_nat cp) printable 0) 1) as [E|E].
    + apply Forall_cons; [|apply Forall_nil].
      destruct (Z.to_nat cp) as [|n] eqn:N.
      * simpl in E. discriminate.
      * rewrite <- N in E. rewrite printable_table in E by lia.
        unfold displayable, TAB, CR, LF.
        destruct ((Z.to_nat cp =? 9) || (Z.to_nat cp =? 10) || (Z.to_nat cp =? 13)
                  || ((32 <=? Z.to_nat cp) && (Z.to_nat cp <=? 126)))%nat eqn:B;
          [|discriminate].
        repeat (apply orb_true_iff in B; destruct B as [B|B]);
          try (apply Nat.eqb_eq in B; lia).
        apply andb_true_iff in B. destruct B as [B1 B2].
        apply Nat.leb_le in B1. apply Nat.leb_le in B2. lia.
    + apply Forall_app. split; [exact Lx|].
      rewrite format_0x_2 by lia. apply hex2_displayable. lia.
  - destruct (Z.leb_spec cp 0x0513).
    + apply Forall_cons; [|apply Forall_nil]. unfold displayable. lia.
    + destruct (Z.ltb_spec cp 0x10000).
      * apply Forall_app. split; [exact Lu|].
        rewrite format_0x_4 by lia. apply hex4_displayable. lia.
      * destruct (Z.ltb_spec cp 0x110000); [|lia].
        destruct (surrogate_bits (cp - 0x10000) ltac:(lia)) as (E4 & Bh & Bl).
        assert (Hh : 0 <= hi10 cp < 65536)
          by (unfold hi10; cbv zeta; rewrite E4; lia).
        assert (Hl : 0 <= lo10 cp < 65536) by (unfold lo10; lia).
        rewrite !format_0x_4 by assumption.
        apply Forall_app. split; [exact Lu|].
        apply Forall_app. split; [apply hex4_displayable; exact Hh|].
        apply Forall_app. split; [exact Lu|].
        apply hex4_displayable. exact Hl.
Qed.

Lemma backslashreplace_displayable (bad : bytes) :
  Forall in_byte bad -> Forall displayable (backslashreplace bad).
Proof.
  unfold backslashreplace. induction 1 as [|b bad Hb _ IH]; [constructor|].
  cbn [flat_map]. destruct lit_escape_displayable as [Lx _].
  apply Forall_app. split; [|exact IH].
  apply Forall_app. split; [exact Lx|].
  rewrite format_0x_2 by exact Hb. apply hex2_displayable. exact Hb.
Qed.

Lemma displayable_scalar (cp : Z) : displayable cp -> scalar cp.
Proof. unfold displayable, scalar, TAB, CR, LF. lia. Qed.

Lemma formatChar_of_displayable (cp : Z) : displayable cp -> formatChar cp = [cp].
Proof.
  intros D. unfold formatChar.
  destruct (Z.ltb_spec cp 0x80).
  - rewrite printable_yes; [reflexivity|].
    unfold displayable in D. lia.
  - destruct (Z.leb_spec cp 0x0513); [reflexivity|].
    unfold displayable, TAB, CR, LF in D. lia.
Qed.

(** ** The decoder only produces scalar values *)

Lemma is_cont_range (b : Z) : is_cont b = true -> 0x80 <= b < 0xC0.
Proof. unfold is_cont. lia. Qed.

Section DecodeRange.

Variable h : bytes -> pystr.
Hypothesis h_scalar : forall bad, Forall in_byte bad -> Forall scalar (h bad).

Ltac bad_bytes :=
  apply h_scalar; repeat apply Forall_cons; try apply Forall_nil; assumption.

Lemma decode_with_scalar_bounded (n : nat) :
  forall bs, (List.length bs <= n)%nat -> Forall in_byte bs ->
  Forall scalar (decode_with h bs).
Proof.
  induction n as [|n IH]; intros bs L B.
  { destruct bs; [constructor | simpl in L; lia]. }
  destruct bs as [|ch r1]; [constructor|].
  rewrite decode_with_cons.
  inversion B as [|? ? Bch B1]; subst.
  cbn [List.length] in L.
  assert (IH1 : Forall scalar (decode_with h r1)) by (apply IH; [lia | exact B1]).
  assert (E1 : Forall scalar (h [ch] ++ decode_with h r1))
    by (apply Forall_app; split; [bad_bytes | exact IH1]).
  unfold in_byte in Bch.
  destruct (Z.ltb_spec ch 0x80).
  { apply Forall_cons; [unfold scalar; lia | exact IH1]. }
  destruct (Z.ltb_spec ch 0xC2); [exact E1|].
  destruct (Z.ltb_spec ch 0xE0).
  { destruct r1 as [|ch2 r2]; [bad_bytes|].
    inversion B1 as [|? ? Bch2 B2]; subst. cbn [List.length] in L.
    destruct (is_cont ch2) eqn:C2; [|exact E1].
    apply is_cont_range in C2.
    apply Forall_cons; [unfold scalar; lia | apply IH; [lia | exact B2]]. }
  destruct (Z.ltb_spec ch 0xF0).
  { destruct r1 as [|ch2 r2]; [bad_bytes|].
    inversion B1 as [|? ? Bch2 B2]; subst. cbn [List.length] in L.
    destruct (is_cont ch2) eqn:C2; cbn [negb orb]; [|exact E1].
    apply is_cont_range in C2.
    assert (IH2 : Forall scalar (decode_with h r2)) by (apply IH; [lia | exact B2]).
    destruct (Z.ltb_spec ch2 0xA0);
      [destruct (Z.eqb_spec ch 0xE0) | destruct (Z.eqb_spec ch 0xED)]; try exact E1.
    - destruct r2 as [|ch3 r3]; [bad_bytes|].
      inversion B2 as [|? ? Bch3 B3]; subst. cbn [List.length] in L.
      destruct (is_cont ch3) eqn:C3.
      + apply is_cont_range in C3.
        apply Forall_cons; [unfold scalar; lia | apply IH; [lia | exact B3]].
      + apply Forall_app; split; [bad_bytes | exact IH2].
    - destruct r2 as [|ch3 r3]; [bad_bytes|].
      inversion B2 as [|? ? Bch3 B3]; subst. cbn [List.length] in L.
      destruct (is_cont ch3) eqn:C3.
      + apply is_cont_range in C3.
        apply Forall_cons; [unfold scalar; lia | apply IH; [lia | exact B3]].
      + apply Forall_app; split; [bad_bytes | exact IH2]. }
  destruct (Z.ltb_spec ch 0xF5); [|exact E1].
  destruct r1 as [|ch2 r2]; [bad_bytes|].
  inversion B1 as [|? ? Bch2 B2]; subst. cbn [List.length] in L.
  destruct (is_cont ch2) eqn:C2; cbn [negb orb]; [|exact E1].
  apply is_cont_range in C2.
  assert (IH2 : Forall scalar (decode_with h r2)) by (apply IH; [lia | exact B2]).
  assert (Tail : ~ (ch2 < 0x90 /\ ch = 0xF0) -> ~ (0x90 <= ch2 /\ ch = 0xF4) ->
    Forall scalar
      match r2 with
      | [] => h [ch; ch2]
      | ch3 :: r3 =>
          if negb (is_cont ch3)
          then h [ch; ch2] ++ decode_with h r2
          else
            match r3 with
            | [] => h [ch; ch2; ch3]
            | ch4 :: r4 =>
                if is_cont ch4
                then ((ch - 0xF0) * 262144 + (ch2 - 0x80) * 4096
                      + (ch3 - 0x80) * 64 + (ch4 - 0x80)) :: decode_with h r4
                else h [ch; ch2; ch3] ++ decode_with h r3
            end
      end).
  { intros N0 N4.
    destruct r2 as [|ch3 r3]; [bad_bytes|].
    inversion B2 as [|? ? Bch3 B3]; subst. cbn [List.length] in L.
    destruct (is_cont ch3) eqn:C3; cbn [negb];
      [|apply Forall_app; split; [bad_bytes | exact IH2]].
    apply is_cont_range in C3.
    destruct r3 as [|ch4 r4]; [bad_bytes|].
    inversion B3 as [|? ? Bch4 B4]; subst. cbn [List.length] in L.
    destruct (is_cont ch4) eqn:C4.
    - apply is_cont_range in C4.
      apply Forall_cons; [unfold scalar; lia | apply IH; [lia | exact B4]].
    - apply Forall_app; split;
        [bad_bytes | apply IH; [cbn [List.length]; lia | exact B3]]. }
  destruct (Z.ltb_spec ch2 0x90);
    [destruct (Z.eqb_spec ch 0xF0) | destruct (Z.eqb_spec ch 0xF4)]; try exact E1;
    apply Tail; lia.
Qed.

Lemma decode_with_scalar (bs : bytes) :
  Forall in_byte bs -> Forall scalar (decode_with h bs).
Proof.
  apply (decode_with_scalar_bounded (List.length bs)). lia.
Qed.

End DecodeRange.

Lemma Forall_flat_map (A B : Type) (P : B -> Prop) (f : A -> list B) (l : list A) :
  Forall (fun x => Forall P (f x)) l -> Forall P (flat_map f l).
Proof.
  induction 1 as [|x l Hx _ IH]; [constructor|].
  cbn [flat_map]. apply Forall_app. split; assumption.
Qed.

(** X5: whatever bytes consoleFormat is given, every character of the text
    it returns is one the console can show: printable ASCII, TAB, CR, LF or
    a code point of 0x80..0x513.  In particular the last branch of the
    loop, the replacement character U+FFFD, is never taken. *)
Theorem consoleFormat_displayable (bytesIn : bytes) :
  Forall in_byte bytesIn -> Forall displayable (consoleFormat bytesIn).
Proof.
  intros B. unfold consoleFormat. apply Forall_flat_map.
  assert (S : Forall scalar (decode_with backslashreplace bytesIn)).
  { apply decode_with_scalar; [|exact B].
    intros bad Hb. eapply Forall_impl; [|apply backslashreplace_displayable; exact Hb].
    exact displayable_scalar. }
  eapply Forall_impl; [|exact S].
  intros cp [R _]. apply formatChar_displayable. exact R.
Qed.

Lemma consoleFormat_displayable_witness :
  Forall displayable (consoleFormat [0x07; 0xFF; 0xE2; 0x82; 0xAC; 0xF0; 0x9F]).
Proof.
  apply consoleFormat_displayable.
  repeat apply Forall_cons; try apply Forall_nil; unfold in_byte; lia.
Defined.

(** X6: consoleFormat changes nothing in a text it has already made safe:
    bytes that are displayable ASCII (printable characters, TAB, CR, LF)
    come back as the same characters, so formatting the ASCII output of
    consoleFormat again gives it back. *)
Theorem consoleFormat_ascii_unchanged (bytesIn : bytes) :
  Forall (fun b => 0x20 <= b <= 0x7E \/ b = TAB \/ b = CR \/ b = LF) bytesIn ->
  consoleFormat bytesIn = bytesIn.
Proof.
  unfold consoleFormat. induction 1 as [|b bs Hb _ IH]; [reflexivity|].
  rewrite decode_with_cons.
  replace (b <? 0x80) with true
    by (symmetry; apply Z.ltb_lt; unfold TAB, CR, LF in Hb; lia).
  cbn [flat_map]. rewrite IH.
  rewrite formatChar_of_displayable; [reflexivity|].
  unfold displayable. tauto.
Qed.

Lemma consoleFormat_ascii_unchanged_witness :
  consoleFormat (lit "BrightScript Debugger> " ++ [CR; LF])
  = lit "BrightScript Debugger> " ++ [CR; LF].
Proof.
  apply consoleFormat_ascii_unchanged. simpl.
  repeat apply Forall_cons; try apply Forall_nil; unfold TAB, CR, LF; lia.
Defined.

(** ** The two regular expressions *)

Lemma reLines_match_some (s : pystr) :
  forall m rest, reLines_match s = Some (m, rest) ->
  s = m ++ rest /\ cr_line m.
Proof.
  induction s as [|c s IH]; intros m rest H; [discriminate|].
  cbn [reLines_match] in H.
  destruct (Z.eqb_spec c CR) as [->|N].
  - injection H as <- <-. split; [reflexivity|]. exists []. auto.
  - destruct (reLines_match s) as [[m' rest']|]; [|discriminate].
    injection H as <- <-.
    destruct (IH m' rest' eq_refl) as (-> & body & -> & Hb).
    split; [reflexivity|]. exists (c :: body). split; [reflexivity|].
    unfold has_CR in *. cbn [existsb]. rewrite Hb.
    destruct (Z.eqb_spec CR c); [congruence | reflexivity].
Qed.

Lemma reLines_match_none (s : pystr) :
  reLines_match s = None -> has_CR s = false.
Proof.
  induction s as [|c s IH]; intros H; [reflexivity|].
  cbn [reLines_match] in H. unfold has_CR in *. cbn [existsb].
  destruct (Z.eqb_spec c CR) as [->|N]; [discriminate|].
  destruct (reLines_match s) as [[m' rest']|]; [discriminate|].
  rewrite (IH eq_refl).
  destruct (Z.eqb_spec CR c); [congruence | reflexivity].
Qed.

Lemma reLines_match_line (body rest : pystr) :
  has_CR body = false ->
  reLines_match (body ++ CR :: rest) = Some (body ++ [CR], rest).
Proof.
  induction body as [|c body IH]; intros H.
  - reflexivity.
  - unfold has_CR in H. cbn [existsb] in H. apply orb_false_elim in H.
    destruct H as [Hc Hb]. cbn [app reLines_match].
    destruct (Z.eqb_spec c CR) as [->|N]; [rewrite Z.eqb_refl in Hc; discriminate|].
    rewrite (IH Hb). reflexivity.
Qed.

Lemma has_CR_tail (c : Z) (s : pystr) : has_CR (c :: s) = false -> has_CR s = false.
Proof.
  unfold has_CR. cbn [existsb]. intros H. apply orb_false_elim in H. tauto.
Qed.

Lemma findall_from_no_CR (fuel : nat) :
  forall s, has_CR s = false -> findall_from fuel s = [].
Proof.
  induction fuel as [|f IH]; intros s H; [reflexivity|].
  cbn [findall_from].
  destruct (reLines_match s) as [[m rest]|] eqn:E.
  - apply reLines_match_some in E. destruct E as (-> & body & -> & _).
    unfold has_CR in H. rewrite !existsb_app in H. cbn [existsb] in H.
    rewrite Z.eqb_refl in H. cbn in H. rewrite orb_true_r in H. discriminate.
  - destruct s as [|c s]; [reflexivity|]. apply IH. apply (has_CR_tail c). exact H.
Qed.

Lemma reTrail_match_CR (body rest : pystr) :
  reTrail_match (body ++ CR :: rest) = None.
Proof.
  induction body as [|c body IH]; [reflexivity|].
  cbn [app reTrail_match]. destruct (c =? CR); [reflexivity|].
  rewrite IH. reflexivity.
Qed.

Lemma reTrail_search_after_CR (body rest : pystr) :
  reTrail_search (body ++ CR :: rest) = reTrail_search rest.
Proof.
  induction body as [|c body IH].
  - pose proof (reTrail_match_CR [] rest) as E. cbn [app] in *.
    cbn [reTrail_search]. rewrite E. reflexivity.
  - pose proof (reTrail_match_CR (c :: body) rest) as E. cbn [app] in *.
    cbn [reTrail_search]. rewrite E. exact IH.
Qed.

Lemma reTrail_match_no_CR_id (s : pystr) :
  has_CR s = false -> reTrail_match s = Some s.
Proof.
  induction s as [|c s IH]; intros H; [reflexivity|].
  pose proof (has_CR_tail c s H) as Ht.
  unfold has_CR in H. cbn [existsb] in H. apply orb_false_elim in H.
  destruct H as [Hc _]. cbn [reTrail_match].
  destruct (Z.eqb_spec c CR) as [->|N]; [rewrite Z.eqb_refl in Hc; discriminate|].
  rewrite (IH Ht). reflexivity.
Qed.

Lemma reTrail_search_no_CR_id (s : pystr) :
  has_CR s = false -> reTrail_search s = Some s.
Proof.
  intros H. destruct s as [|c s]; [reflexivity|].
  cbn [reTrail_search]. rewrite (reTrail_match_no_CR_id (c :: s) H). reflexivity.
Qed.

Lemma framing_with_fuel (fuel : nat) :
  forall s, (List.length s < fuel)%nat ->
  exists t,
    reTrail_search s = Some t /\ has_CR t = false
    /\ List.concat (findall_from fuel s) ++ t = s
    /\ Forall cr_line (findall_from fuel s).
Proof.
  induction fuel as [|f IH]; intros s L; [lia|].
  cbn [findall_from].
  destruct (reLines_match s) as [[m rest]|] eqn:E.
  - pose proof (reLines_match_some s m rest E) as (-> & body & -> & Hb).
    destruct (IH rest) as (t & T & N & C & F).
    { rewrite !length_app in L. simpl in L. lia. }
    exists t. repeat split.
    + rewrite <- app_assoc. cbn [app]. rewrite reTrail_search_after_CR. exact T.
    + exact N.
    + cbn [List.concat]. rewrite <- !app_assoc. rewrite C. reflexivity.
    + constructor; [exists body; auto | exact F].
  - apply reLines_match_none in E.
    exists s. repeat split; [apply reTrail_search_no_CR_id; exact E | exact E | |].
    + destruct s as [|c s]; [reflexivity|].
      rewrite (findall_from_no_CR f s (has_CR_tail c s E)). reflexivity.
    + destruct s as [|c s]; [constructor|].
      rewrite (findall_from_no_CR f s (has_CR_tail c s E)). constructor.
Qed.

(** X7: line extraction loses nothing and invents nothing: for every buffer
    the lines found by [reLines.findall], joined, followed by the remainder
    found by [reTrail.search], are the buffer itself; every line is a run
    without CR ended by one CR, and the remainder has no CR. *)
Theorem line_extraction_partitions_buffer (buf : pystr) :
  exists t,
    reTrail_search buf = Some t
    /\ has_CR t = false
    /\ List.concat (reLines_findall buf) ++ t = buf
    /\ Forall cr_line (reLines_findall buf).
Proof.
  unfold reLines_findall. apply framing_with_fuel. lia.
Qed.

(** ** The console thread on well-formed data *)

Lemma encode_total (s : pystr) : Forall scalar s -> exists b, encode s = Some b.
Proof.
  induction 1 as [|c s Hc _ [b IH]]; [exists []; reflexivity|].
  apply encode_char_scalar in Hc. destruct Hc as [bc Hc].
  exists (bc ++ b). simpl. rewrite Hc, IH. reflexivity.
Qed.

Lemma encode_app (s1 s2 : pystr) (b1 b2 : bytes) :
  encode s1 = Some b1 -> encode s2 = Some b2 ->
  encode (s1 ++ s2) = Some (b1 ++ b2).
Proof.
  revert b1. induction s1 as [|c s1 IH]; intros b1 H1 H2.
  - injection H1 as <-. exact H2.
  - apply encode_cons in H1. destruct H1 as (bc & b1' & Hc & H1 & ->).
    cbn [app encode]. rewrite Hc, (IH b1' H1 H2), app_assoc. reflexivity.
Qed.

Lemma Forall_concat_parts (A : Type) (P : A -> Prop) (ls : list (list A)) :
  Forall P (List.concat ls) -> Forall (Forall P) ls.
Proof.
  induction ls as [|l ls IH]; intros H; [constructor|].
  cbn [List.concat] in H. apply Forall_app in H. destruct H as [H1 H2].
  constructor; [exact H1 | apply IH; exact H2].
Qed.

Lemma relay_scalar (lines : list pystr) :
  Forall (Forall scalar) lines ->
  forall st, exists st', relay lines st = (st', true).
Proof.
  induction 1 as [|l lines Hl _ IH]; intros st.
  - exists st. reflexivity.
  - cbn [relay]. destruct (encode_total l Hl) as [b ->]. apply IH.
Qed.

Lemma replace_scalar (bad : bytes) : Forall in_byte bad -> Forall scalar (replace bad).
Proof.
  intros _. unfold replace. apply Forall_cons; [|apply Forall_nil].
  unfold scalar. lia.
Qed.

Lemma frame_lines_scalar (st : console_state) :
  Forall scalar (charBuf st) ->
  exists st', frame_lines st = (st', None) /\ Forall scalar (charBuf st').
Proof.
  intros S. unfold frame_lines.
  destruct (framing_with_fuel (Datatypes.S (List.length (charBuf st))) (charBuf st)
              ltac:(lia)) as (t & T & _ & C & _).
  fold (reLines_findall (charBuf st)) in C.
  rewrite <- C in S. apply Forall_app in S. destruct S as [Sl St].
  destruct (relay_scalar _ (Forall_concat_parts _ _ _ Sl) st) as [st2 R].
  rewrite R. destruct (relay_keeps _ _ _ _ R) as [_ K]. rewrite K, T.
  eexists. split; [reflexivity | exact St].
Qed.

Lemma consoleThread_iter_scalar (b : Z) (bs : bytes) (st : console_state) :
  Forall scalar (charBuf st) -> Forall in_byte (b :: bs) ->
  exists st' q,
    consoleThread_iter (Recv (b :: bs)) st = (st', q)
    /\ q <> Some ConsoleSocketError
    /\ (q = None -> Forall scalar (charBuf st')).
Proof.
  intros S B.
  assert (S1 : Forall scalar (charBuf (received (b :: bs) st))).
  { cbn [received charBuf]. apply Forall_app. split; [exact S|].
    apply decode_with_scalar; [exact replace_scalar | exact B]. }
  destruct (contains quit_cmd (charBuf (received (b :: bs) st))) eqn:Q.
  { rewrite (consoleThread_iter_quit b bs st Q).
    eexists. eexists. split; [reflexivity|]. split; discriminate. }
  destruct (contains break_cmd (charBuf (received (b :: bs) st))) eqn:K.
  { rewrite (consoleThread_iter_break b bs st Q K).
    eexists. eexists. split; [reflexivity|]. split; [discriminate|].
    intros _. constructor. }
  rewrite (consoleThread_iter_lines b bs st Q K).
  destruct (frame_lines_scalar _ S1) as (st' & F & S').
  exists st', None. split; [exact F|]. split; [discriminate | auto].
Qed.

Lemma consoleThread_scalar (chunks : list bytes) :
  Forall (Forall in_byte) chunks ->
  forall st, Forall scalar (charBuf st) ->
  snd (consoleThread (map Recv chunks) st) <> Quit ConsoleSocketError.
Proof.
  induction 1 as [|c chunks Hc _ IH]; intros st S.
  - simpl. discriminate.
  - cbn [map consoleThread].
    destruct c as [|b bs]; [simpl; discriminate|].
    destruct (consoleThread_iter_scalar b bs st S Hc) as (st' & q & E & N & S').
    rewrite E. destruct q as [q|].
    + cbn [snd]. intros X. injection X as ->. apply N. reflexivity.
    + apply IH. apply S'. reflexivity.
Qed.

(** X8: the console thread never ends with its error message because of the
    data it receives: whatever bytes arrive, well-formed UTF-8 or not,
    [line.encode()] never raises and [reTrail.search] always matches, so the
    thread is still waiting, or it ended on "quit\r", or on an empty read. *)
Theorem console_thread_data_never_fails (chunks : list bytes) (log : LogWriter) :
  Forall (Forall in_byte) chunks ->
  snd (consoleThread (map Recv chunks) (console_init log))
  <> Quit ConsoleSocketError.
Proof.
  intros H. apply consoleThread_scalar; [exact H|].
  cbn [console_init charBuf]. constructor.
Qed.

Lemma console_thread_data_never_fails_witness :
  snd (consoleThread (map Recv [[0xC3]; [0xFF; 0x41; 13]; [0xED; 0xA0; 0x80; 13]])
         (console_init {| logFd := None |}))
  <> Quit ConsoleSocketError.
Proof.
  apply (console_thread_data_never_fails
           [[0xC3]; [0xFF; 0x41; 13]; [0xED; 0xA0; 0x80; 13]]).
  repeat (apply Forall_cons; [repeat apply Forall_cons; try apply Forall_nil;
                               unfold in_byte; lia|]).
  apply Forall_nil.
Defined.

(** ** The writer thread *)

Lemma firstn_add_skipn (n k : nat) (l : bytes) :
  firstn n l ++ firstn k (skipn n l) = firstn (n + k) l.
Proof.
  revert l. induction n as [|n IH]; intros l; [reflexivity|].
  destruct l as [|x l]; [rewrite skipn_nil, !firstn_nil; reflexivity|].
  cbn [Nat.add firstn skipn app]. rewrite IH. reflexivity.
Qed.

Lemma send_loop_prefix (sends : list send_result) :
  forall data wire wire' sends' status,
  send_loop sends data wire = (wire', sends', status) ->
  (exists k, wire' = wire ++ firstn k data)
  /\ (status = SendDone -> wire' = wire ++ data).
Proof.
  induction sends as [|r sends IH]; intros data wire wire' sends' status H.
  - destruct data as [|x data]; cbn [send_loop] in H; injection H as <- <- <-.
    + split; [exists O | intros _]; rewrite app_nil_r; reflexivity.
    + split; [exists O; rewrite app_nil_r; reflexivity | discriminate].
  - destruct data as [|x data].
    { cbn [send_loop] in H. injection H as <- <- <-.
      split; [exists O | intros _]; rewrite app_nil_r; reflexivity. }
    cbn [send_loop] in H. destruct r as [n|].
    + apply IH in H. destruct H as [[k Hk] Hd]. split.
      * exists (n + k)%nat. rewrite Hk, <- app_assoc, firstn_add_skipn. reflexivity.
      * intros D. rewrite (Hd D), <- app_assoc, firstn_skipn. reflexivity.
    + injection H as <- <- <-.
      split; [exists O; rewrite app_nil_r; reflexivity | discriminate].
Qed.

Lemma writer_thread_prefix (queue : list bytes) :
  forall sends wire,
  exists k, fst (rokuWriterThread queue sends wire)
            = wire ++ firstn k (List.concat queue).
Proof.
  induction queue as [|data queue IH]; intros sends wire.
  - exists O. simpl. rewrite app_nil_r. reflexivity.
  - cbn [rokuWriterThread List.concat].
    destruct (send_loop sends data wire) as [[wire' sends'] status] eqn:E.
    destruct (send_loop_prefix _ _ _ _ _ _ E) as [[k Hk] Hd].
    destruct status.
    + destruct (IH sends' wire') as [k' Hk'].
      exists (List.length data + k')%nat.
      rewrite Hk', (Hd eq_refl), <- app_assoc. f_equal.
      rewrite firstn_app. rewrite (firstn_all2 data) by lia.
      replace (List.length data + k' - List.length data)%nat with k' by lia.
      reflexivity.
    + exists (Nat.min k (List.length data)). cbn [fst]. rewrite Hk. f_equal.
      rewrite firstn_app.
      replace (Nat.min k (List.length data) - List.length data)%nat with O by lia.
      rewrite firstn_O, app_nil_r.
      destruct (Nat.le_ge_cases k (List.length data)).
      * rewrite Nat.min_l by lia. reflexivity.
      * rewrite Nat.min_r by lia. rewrite firstn_all, (firstn_all2 data) by lia.
        reflexivity.
    + exists (Nat.min k (List.length data)). cbn [fst]. rewrite Hk. f_equal.
      rewrite firstn_app.
      replace (Nat.min k (List.length data) - List.length data)%nat with O by lia.
      rewrite firstn_O, app_nil_r.
      destruct (Nat.le_ge_cases k (List.length data)).
      * rewrite Nat.min_l by lia. reflexivity.
      * rewrite Nat.min_r by lia. rewrite firstn_all, (firstn_all2 data) by lia.
        reflexivity.
Qed.

Lemma send_loop_done (sends : list send_result) :
  forall data wire,
  Forall sent_some sends -> (List.length data <= List.length sends)%nat ->
  exists sends',
    send_loop sends data wire = (wire ++ data, sends', SendDone)
    /\ Forall sent_some sends'
    /\ (List.length sends - List.length data <= List.length sends')%nat.
Proof.
  induction sends as [|r sends IH]; intros data wire F L.
  - destruct data; [|simpl in L; lia].
    exists []. rewrite app_nil_r. repeat split; [constructor | simpl; lia].
  - destruct data as [|x data].
    { exists (r :: sends). rewrite app_nil_r. cbn [send_loop].
      repeat split; [exact F | simpl; lia]. }
    inversion F as [|? ? Hr F']; subst.
    destruct r as [n|]; [|destruct Hr]. cbn [sent_some] in Hr.
    cbn [send_loop].
    destruct (IH (skipn n (x :: data)) (wire ++ firstn n (x :: data)) F')
      as (sends' & E & F'' & L').
    { rewrite length_skipn. cbn [List.length] in *. lia. }
    exists sends'. rewrite E, <- app_assoc, firstn_skipn.
    repeat split; [exact F''|].
    rewrite length_skipn in L'. cbn [List.length] in *. lia.
Qed.

Lemma writer_thread_done (queue : list bytes) :
  forall sends wire,
  Forall sent_some sends ->
  (List.length (List.concat queue) <= List.length sends)%nat ->
  rokuWriterThread queue sends wire = (wire ++ List.concat queue, Blocked).
Proof.
  induction queue as [|data queue IH]; intros sends wire F L.
  - simpl. rewrite app_nil_r. reflexivity.
  - cbn [List.concat] in *. rewrite length_app in L. cbn [rokuWriterThread].
    destruct (send_loop_done sends data wire F ltac:(lia)) as (sends' & E & F' & L').
    rewrite E, (IH sends' (wire ++ data) F' ltac:(lia)), <- app_assoc.
    reflexivity.
Qed.

(** X9: what the writer thread has put on the socket is at every moment a
    beginning of the queued messages joined in queue order, whatever the
    sizes of the partial sends and wherever a send raises: no byte is
    skipped, repeated or sent out of order. *)
Theorem writer_sends_in_queue_order (queue : list bytes) (sends : list send_result) :
  exists k : nat,
    fst (rokuWriterThread queue sends []) = firstn k (List.concat queue).
Proof.
  destruct (writer_thread_prefix queue sends []) as [k H].
  exists k. exact H.
Qed.

(** X10: when every send accepts at least one byte, and there are as many
    sends as queued bytes, the writer thread sends every queued message
    whole and in order and then waits for the next message. *)
Theorem writer_delivers_queue (queue : list bytes) (sends : list send_result) :
  Forall sent_some sends ->
  (List.length (List.concat queue) <= List.length sends)%nat ->
  rokuWriterThread queue sends [] = (List.concat queue, Blocked).
Proof.
  intros F L. rewrite (writer_thread_done queue sends [] F L). reflexivity.
Qed.

Lemma writer_delivers_queue_witness :
  rokuWriterThread [[0x03]; [0x63; 13; 10]] [Sent 1; Sent 2; Sent 5; Sent 1] []
  = (List.concat [[0x03]; [0x63; 13; 10]], Blocked).
Proof.
  apply writer_delivers_queue.
  - repeat apply Forall_cons; try apply Forall_nil; simpl; lia.
  - simpl. lia.
Defined.

(** ** A typed line, from the console thread to the Roku *)

Lemma has_CR_app (a b : pystr) : has_CR (a ++ b) = has_CR a || has_CR b.
Proof. unfold has_CR. apply existsb_app. Qed.

Lemma has_CR_rev (s : pystr) : has_CR (rev s) = has_CR s.
Proof.
  induction s as [|c s IH]; [reflexivity|].
  cbn [rev]. rewrite has_CR_app, IH. unfold has_CR. cbn [existsb].
  rewrite orb_false_r. apply orb_comm.
Qed.

Lemma lstrip_no_CR (s : pystr) : has_CR s = false -> lstrip CR s = s.
Proof.
  destruct s as [|c s]; [reflexivity|]. intros H.
  unfold has_CR in H. cbn [existsb] in H. apply orb_false_elim in H.
  destruct H as [Hc _]. cbn [lstrip].
  destruct (Z.eqb_spec c CR) as [->|N]; [rewrite Z.eqb_refl in Hc; discriminate|].
  reflexivity.
Qed.

Lemma rstrip_line (body : pystr) :
  has_CR body = false -> rstrip CR (body ++ [CR]) = body.
Proof.
  intros H. unfold rstrip. rewrite rev_unit. cbn [lstrip].
  rewrite Z.eqb_refl, lstrip_no_CR by (rewrite has_CR_rev; exact H).
  apply rev_involutive.
Qed.

Lemma reLines_findall_line (body : pystr) :
  has_CR body = false -> reLines_findall (body ++ [CR]) = [body ++ [CR]].
Proof.
  intros H. unfold reLines_findall. cbn [findall_from].
  rewrite (reLines_match_line body [] H).
  destruct (List.length (body ++ [CR])); reflexivity.
Qed.

Lemma decode_line (s : pystr) (bs : bytes) :
  encode s = Some bs -> decode_with replace (bs ++ [CR]) = s ++ [CR].
Proof.
  intros H. rewrite (decode_encode replace s bs [CR] H). reflexivity.
Qed.

Lemma encode_line (s : pystr) (bs : bytes) :
  encode s = Some bs -> encode (s ++ [CR]) = Some (bs ++ [CR]).
Proof.
  intros H. apply encode_app; [exact H | reflexivity].
Qed.

(** X11: a line typed by the user reaches the Roku as the line followed by
    CR LF.  From an empty buffer, the bytes [line.encode() + b'\r'] of a line
    that has no CR and does not end in a reserved command are decoded,
    printed without the CR, queued as the same bytes followed by LF, and
    leave the buffer empty; the writer thread, given sends that each accept
    at least one byte, then puts exactly the queued bytes on the socket. *)
Theorem typed_line_reaches_roku (s : pystr) (bs : bytes) (st : console_state)
    (sends : list send_result) :
  charBuf st = [] -> encode s = Some bs -> has_CR s = false ->
  contains quit_cmd (s ++ [CR]) = false ->
  contains break_cmd (s ++ [CR]) = false ->
  let r := consoleThread_iter (Recv (bs ++ [CR])) st in
  snd r = None
  /\ charBuf (fst r) = []
  /\ printed (fst r) = printed st ++ [s]
  /\ rokuWriterQ (fst r) = rokuWriterQ st ++ [bs ++ [CR; LF]]
  /\ (Forall sent_some sends ->
      (List.length (List.concat (rokuWriterQ st)) + List.length bs + 2
       <= List.length sends)%nat ->
      rokuWriterThread (rokuWriterQ (fst r)) sends []
      = (List.concat (rokuWriterQ st) ++ bs ++ [CR; LF], Blocked)).
Proof.
  intros B E N Q K r. subst r.
  assert (D : charBuf (received (bs ++ [CR]) st) = s ++ [CR])
    by (cbn [received charBuf]; rewrite B, (decode_line s bs E); reflexivity).
  assert (I : consoleThread_iter (Recv (bs ++ [CR])) st
              = frame_lines (received (bs ++ [CR]) st)).
  { destruct (bs ++ [CR]) as [|x xs] eqn:J; [destruct bs; discriminate|].
    apply consoleThread_iter_lines; rewrite D; assumption. }
  assert (F : frame_lines (received (bs ++ [CR]) st)
              = (set_charBuf []
                   (put_nowait ((bs ++ [CR]) ++ [LF])
                      (tPrint s (received (bs ++ [CR]) st))), None)).
  { unfold frame_lines. rewrite D, (reLines_findall_line s N).
    cbn [relay]. rewrite (rstrip_line s N), (encode_line s bs E).
    cbn [put_nowait tPrint charBuf]. rewrite D.
    rewrite (reTrail_search_after_CR s []). reflexivity. }
  rewrite I, F. cbn [fst snd set_charBuf put_nowait tPrint received
                     charBuf printed rokuWriterQ].
  rewrite <- (app_assoc bs [CR] [LF]). cbn [app].
  repeat split.
  intros Fs L. rewrite writer_thread_done.
  - rewrite concat_app. cbn [List.concat app]. rewrite app_nil_r. reflexivity.
  - exact Fs.
  - rewrite concat_app, !length_app. cbn [List.concat List.length app].
    rewrite app_nil_r, length_app. cbn [List.length]. lia.
Qed.

Lemma typed_line_reaches_roku_witness :
  let r := consoleThread_iter (Recv (lit "print m" ++ [CR]))
             (console_init {| logFd := None |}) in
  snd r = None
  /\ charBuf (fst r) = []
  /\ printed (fst r) = [] ++ [lit "print m"]
  /\ rokuWriterQ (fst r) = [] ++ [lit "print m" ++ [CR; LF]]
  /\ (Forall sent_some (repeat (Sent 4) 9) ->
      (List.length (List.concat (@nil bytes)) + List.length (lit "print m") + 2
       <= List.length (repeat (Sent 4) 9))%nat ->
      rokuWriterThread (rokuWriterQ (fst r)) (repeat (Sent 4) 9) []
      = (List.concat [] ++ lit "print m" ++ [CR; LF], Blocked)).
Proof.
  apply (typed_line_reaches_roku (lit "print m") (lit "print m")
           (console_init {| logFd := None |}) (repeat (Sent 4) 9));
    reflexivity.
Defined.

(** ** A line received in two pieces *)

Lemma startswith_CR (p hay : pystr) :
  startswith (p ++ [CR]) hay = true -> has_CR hay = true.
Proof.
  revert hay. induction p as [|a p IH]; intros hay H.
  - destruct hay as [|c hay]; [discriminate|].
    cbn [app startswith] in H. apply andb_true_iff in H. destruct H as [H _].
    unfold has_CR. cbn [existsb]. rewrite H. reflexivity.
  - destruct hay as [|c hay]; [discriminate|].
    cbn [app startswith] in H. apply andb_true_iff in H. destruct H as [_ H].
    unfold has_CR. cbn [existsb]. apply IH in H. unfold has_CR in H.
    rewrite H. apply orb_true_r.
Qed.

Lemma contains_needs_CR (p hay : pystr) :
  has_CR hay = false -> contains (p ++ [CR]) hay = false.
Proof.
  induction hay as [|c hay IH]; intros H.
  - rewrite contains_unfold.
    destruct (startswith (p ++ [CR]) []) eqn:E; [|reflexivity].
    apply startswith_CR in E. discriminate.
  - rewrite contains_unfold, (IH (has_CR_tail c hay H)).
    destruct (startswith (p ++ [CR]) (c :: hay)) eqn:E; [|reflexivity].
    apply startswith_CR in E. congruence.
Qed.

Lemma decode_encoded (s : pystr) (bs : bytes) :
  encode s = Some bs -> decode_with replace bs = s.
Proof.
  intros H. rewrite <- (app_nil_r bs), (decode_encode replace s bs [] H).
  apply app_nil_r.
Qed.

(** A chunk without CR only grows the buffer. *)
Lemma consoleThread_iter_partial (st : console_state) (s : pystr) (bs : bytes) :
  encode s = Some bs -> bs <> [] -> has_CR (charBuf st ++ s) = false ->
  consoleThread_iter (Recv bs) st
  = (set_charBuf (charBuf st ++ s) (received bs st), None).
Proof.
  intros E NE N.
  destruct bs as [|b bs]; [contradiction|].
  assert (D : charBuf (received (b :: bs) st) = charBuf st ++ s)
    by (cbn [received charBuf]; rewrite (decode_encoded s _ E); reflexivity).
  rewrite consoleThread_iter_lines;
    try (rewrite D; apply (contains_needs_CR _ _ N)).
  unfold frame_lines. rewrite D. unfold reLines_findall.
  rewrite (findall_from_no_CR _ _ N). cbn [relay]. rewrite D.
  rewrite (reTrail_search_no_CR_id _ N). reflexivity.
Qed.

(** A chunk that brings the CR completes the buffered line. *)
Lemma consoleThread_iter_completes (st : console_state) (s : pystr)
    (bpre bs : bytes) :
  encode (charBuf st) = Some bpre -> encode s = Some bs ->
  has_CR (charBuf st ++ s) = false ->
  contains quit_cmd (charBuf st ++ s ++ [CR]) = false ->
  contains break_cmd (charBuf st ++ s ++ [CR]) = false ->
  consoleThread_iter (Recv (bs ++ [CR])) st
  = (set_charBuf []
       (put_nowait ((bpre ++ bs ++ [CR]) ++ [LF])
          (tPrint (charBuf st ++ s) (received (bs ++ [CR]) st))), None).
Proof.
  intros Ep E N Q K.
  assert (D : charBuf (received (bs ++ [CR]) st) = (charBuf st ++ s) ++ [CR])
    by (cbn [received charBuf]; rewrite (decode_line s bs E), app_assoc; reflexivity).
  assert (I : consoleThread_iter (Recv (bs ++ [CR])) st
              = frame_lines (received (bs ++ [CR]) st)).
  { destruct (bs ++ [CR]) as [|x xs] eqn:J; [destruct bs; discriminate|].
    apply consoleThread_iter_lines; rewrite D, <- app_assoc; assumption. }
  rewrite I. unfold frame_lines.
  rewrite D, (reLines_findall_line _ N). cbn [relay].
  rewrite (rstrip_line _ N).
  rewrite (encode_line _ _ (encode_app _ _ _ _ Ep E)), <- app_assoc.
  cbn [put_nowait tPrint charBuf]. rewrite D.
  rewrite (reTrail_search_after_CR (charBuf st ++ s) []).
  cbn [reTrail_search reTrail_match]. rewrite <- !app_assoc. reflexivity.
Qed.

(** X12: a line that arrives in two receives into an empty buffer is
    relayed once, when its CR arrives, provided each of the two pieces is
    valid UTF-8 on its own, the line has no CR inside and, with its CR, does
    not contain "quit\r" or "break\r".  The first piece is only buffered:
    nothing is printed or queued.  The second piece, which ends with the CR,
    completes the line: the whole line is printed, queued as the bytes of
    both pieces followed by CR LF, and the buffer is empty again. *)
Theorem line_split_over_two_receives (st : console_state)
    (s1 s2 : pystr) (b1 b2 : bytes) :
  charBuf st = [] -> encode s1 = Some b1 -> b1 <> [] -> encode s2 = Some b2 ->
  has_CR (s1 ++ s2) = false ->
  contains quit_cmd (s1 ++ s2 ++ [CR]) = false ->
  contains break_cmd (s1 ++ s2 ++ [CR]) = false ->
  let r1 := consoleThread_iter (Recv b1) st in
  let r2 := consoleThread_iter (Recv (b2 ++ [CR])) (fst r1) in
  (snd r1 = None /\ charBuf (fst r1) = s1
   /\ printed (fst r1) = printed st /\ rokuWriterQ (fst r1) = rokuWriterQ st)
  /\ (snd r2 = None /\ charBuf (fst r2) = []
      /\ printed (fst r2) = printed st ++ [s1 ++ s2]
      /\ rokuWriterQ (fst r2) = rokuWriterQ st ++ [b1 ++ b2 ++ [CR; LF]]).
Proof.
  intros B E1 NE E2 N Q K r1 r2. subst r2 r1.
  assert (N1 : has_CR (charBuf st ++ s1) = false).
  { rewrite B. cbn [app]. rewrite has_CR_app in N.
    apply orb_false_elim in N. tauto. }
  rewrite (consoleThread_iter_partial st s1 b1 E1 NE N1). cbn [fst snd].
  rewrite B. cbn [app set_charBuf received charBuf printed rokuWriterQ].
  split; [repeat split|].
  rewrite (consoleThread_iter_completes (set_charBuf s1 (received b1 st))
             s2 b1 b2 E1 E2 N Q K).
  cbn [fst snd set_charBuf put_nowait tPrint received
       charBuf printed rokuWriterQ].
  repeat split. rewrite <- !app_assoc. reflexivity.
Qed.

Lemma line_split_over_two_receives_witness :
  let st := console_init {| logFd := None |} in
  let r1 := consoleThread_iter (Recv (lit "pri")) st in
  let r2 := consoleThread_iter (Recv (lit "nt m" ++ [CR])) (fst r1) in
  (snd r1 = None /\ charBuf (fst r1) = lit "pri"
   /\ printed (fst r1) = printed st /\ rokuWriterQ (fst r1) = rokuWriterQ st)
  /\ (snd r2 = None /\ charBuf (fst r2) = []
      /\ printed (fst r2) = printed st ++ [lit "pri" ++ lit "nt m"]
      /\ rokuWriterQ (fst r2)
         = rokuWriterQ st ++ [lit "pri" ++ lit "nt m" ++ [CR; LF]]).
Proof.
  apply (line_split_over_two_receives (console_init {| logFd := None |})
           (lit "pri") (lit "nt m") (lit "pri") (lit "nt m"));
    try reflexivity.
  discriminate.
Defined.

(** ** The input window and the console thread *)

Lemma consoleThread_iter_break_msg (st : console_state) :
  charBuf st = [] ->
  consoleThread_iter (Recv break_msg) st
  = (put_nowait [0x03]
       (set_charBuf []
          (tPrint (lit "roky: Breaking into debugger") (received break_msg st))),
     None).
Proof.
  intros B. apply consoleThread_iter_break;
    cbn [received charBuf]; rewrite B; reflexivity.
Qed.

(** X13: Ctrl/C in the input window.  The child sends "break\r" and then,
    because the loop goes on with an empty line, "\r".  When the console
    thread (empty buffer) gets them in two reads it queues the control byte
    0x03 and then an empty line "\r\n" for the Roku; when it gets them in one
    read it queues the control byte only. *)
Theorem ctrl_c_sends_break_then_empty_line (is_quit : pystr -> bool)
    (st : console_state) :
  is_quit [] = false -> charBuf st = [] ->
  let child := childMain is_quit (fun _ => true) [Interrupted] [] in
  child = ([break_msg; [CR]], ChildReading)
  /\ (let run := consoleThread (map Recv (fst child)) st in
      snd run = Blocked /\ charBuf (fst run) = []
      /\ rokuWriterQ (fst run) = rokuWriterQ st ++ [[0x03]; [CR; LF]])
  /\ (let run := consoleThread [Recv (List.concat (fst child))] st in
      snd run = Blocked /\ charBuf (fst run) = []
      /\ rokuWriterQ (fst run) = rokuWriterQ st ++ [[0x03]]).
Proof.
  intros Q B child.
  assert (C : child = ([break_msg; [CR]], ChildReading)).
  { subst child. cbn [childMain child_send List.length app].
    unfold child_relay. rewrite Q. reflexivity. }
  rewrite C. cbn [fst]. split; [reflexivity|]. split.
  - cbn [map consoleThread]. rewrite (consoleThread_iter_break_msg st B).
    set (st1 := put_nowait [0x03] _).
    assert (I : consoleThread_iter (Recv [CR]) st1
                = (set_charBuf []
                     (put_nowait [CR; LF] (tPrint [] (received [CR] st1))), None)).
    { rewrite (consoleThread_iter_lines CR [] st1) by reflexivity. reflexivity. }
    rewrite I. cbn [fst snd set_charBuf put_nowait tPrint charBuf rokuWriterQ].
    subst st1. cbn [put_nowait rokuWriterQ set_charBuf tPrint received].
    rewrite <- app_assoc. repeat split.
  - cbn [consoleThread].
    assert (I : consoleThread_iter (Recv (List.concat [break_msg; [CR]])) st
                = (put_nowait [0x03]
                     (set_charBuf []
                        (tPrint (lit "roky: Breaking into debugger")
                           (received (List.concat [break_msg; [CR]]) st))), None)).
    { apply consoleThread_iter_break; cbn [received charBuf]; rewrite B; reflexivity. }
    rewrite I. repeat split.
Qed.

Lemma ctrl_c_sends_break_then_empty_line_witness :
  let st := console_init {| logFd := None |} in
  let child := childMain (fun s => false) (fun _ => true) [Interrupted] [] in
  child = ([break_msg; [CR]], ChildReading)
  /\ (let run := consoleThread (map Recv (fst child)) st in
      snd run = Blocked /\ charBuf (fst run) = []
      /\ rokuWriterQ (fst run) = rokuWriterQ st ++ [[0x03]; [CR; LF]])
  /\ (let run := consoleThread [Recv (List.concat (fst child))] st in
      snd run = Blocked /\ charBuf (fst run) = []
      /\ rokuWriterQ (fst run) = rokuWriterQ st ++ [[0x03]]).
Proof.
  apply (ctrl_c_sends_break_then_empty_line (fun s => false)
           (console_init {| logFd := None |})); reflexivity.
Defined.

(** X14: typing quit.  When the input passes the child's quit test, the
    child sends "quit\r", reads no further input and closes; the console
    thread that receives "quit\r", whatever its buffer holds, ends with the
    terminating message and relays nothing. *)
Theorem typed_quit_ends_both_sides (is_quit : pystr -> bool)
    (userInput : pystr) (rest : list input_result) (sent : list bytes)
    (st : console_state) (more : list recv_result) :
  is_quit userInput = true ->
  childMain is_quit (fun _ => true) (Typed userInput :: rest) sent
  = (sent ++ [quit_msg], ChildClosed)
  /\ (let run := consoleThread (Recv quit_msg :: more) st in
      snd run = Quit Terminating
      /\ rokuWriterQ (fst run) = rokuWriterQ st
      /\ printed (fst run) = printed st).
Proof.
  intros Q. split.
  - cbn [childMain]. unfold child_relay, child_send. rewrite Q. reflexivity.
  - assert (H : contains quit_cmd (charBuf (received quit_msg st)) = true).
    { cbn [received charBuf].
      change (decode_with replace quit_msg) with (quit_cmd ++ []).
      apply contains_app. }
    cbn [consoleThread].
    change quit_msg with (113 :: 117 :: 105 :: 116 :: [CR]) in *.
    rewrite (consoleThread_iter_quit _ _ st H). repeat split.
Qed.

Lemma typed_quit_ends_both_sides_witness :
  childMain (fun s => match s with [81; 117; 105; 116] => true | _ => false end)
    (fun _ => true) [Typed [81; 117; 105; 116]; Typed [97]] []
  = ([] ++ [quit_msg], ChildClosed)
  /\ (let run := consoleThread [Recv quit_msg; Recv [97; 13]]
                   (console_init {| logFd := None |}) in
      snd run = Quit Terminating
      /\ rokuWriterQ (fst run) = []
      /\ printed (fst run) = []).
Proof.
  apply (typed_quit_ends_both_sides
           (fun s => match s with [81; 117; 105; 116] => true | _ => false end)
           [81; 117; 105; 116] [Typed [97]] []
           (console_init {| logFd := None |}) [Recv [97; 13]]).
  reflexivity.
Defined.

(** X15: a send that fails.  While relaying a typed line the failure ends
    the child's loop: nothing more is sent and later input is not read.
    While handling Ctrl/C the failure is raised inside the handler and
    leaves [childMain] altogether. *)
Theorem child_stops_when_send_fails (is_quit : pystr -> bool)
    (sock_up : nat -> bool) (userInput : pystr)
    (rest : list input_result) (sent : list bytes) :
  sock_up (List.length sent) = false ->
  childMain is_quit sock_up (Typed userInput :: rest) sent = (sent, ChildClosed)
  /\ childMain is_quit sock_up (Interrupted :: rest) sent = (sent, ChildCrashed).
Proof.
  intros D. split.
  - cbn [childMain]. unfold child_relay, child_send. rewrite D.
    destruct (is_quit userInput); [reflexivity|].
    destruct (encode userInput); reflexivity.
  - cbn [childMain]. unfold child_send. rewrite D. reflexivity.
Qed.

Lemma child_stops_when_send_fails_witness :
  childMain (fun _ => false) (fun n => (n <? 1)%nat) [Typed [97]; Typed [98]] [[120; 13]]
  = ([[120; 13]], ChildClosed)
  /\ childMain (fun _ => false) (fun n => (n <? 1)%nat) [Interrupted; Typed [98]] [[120; 13]]
     = ([[120; 13]], ChildCrashed).
Proof.
  apply (child_stops_when_send_fails (fun _ => false) (fun n => (n <? 1)%nat)
           [97] [Typed [98]] [[120; 13]]).
  reflexivity.
Defined.

(** ** Bytes that are not UTF-8 *)

Lemma backslashreplace_one (b : Z) :
  in_byte b -> backslashreplace [b] = lit "\x" ++ hex2 b.
Proof.
  intros H. unfold backslashreplace. cbn [flat_map].
  rewrite app_nil_r, format_0x_2 by exact H. reflexivity.
Qed.

Lemma flat_map_formatChar_displayable (s : pystr) :
  Forall displayable s -> flat_map formatChar s = s.
Proof.
  induction 1 as [|c s Hc _ IH]; [reflexivity|].
  cbn [flat_map]. rewrite IH, (formatChar_of_displayable c Hc). reflexivity.
Qed.

(** X16: bytes that cannot start a UTF-8 sequence (stray continuation bytes
    0x80..0xBF, the over-long leads 0xC0 and 0xC1, and 0xF5..0xFF) are each
    shown by consoleFormat as a backslash, an x and the two lowercase
    hexadecimal digits of the byte. *)
Theorem consoleFormat_escapes_invalid_bytes (bytesIn : bytes) :
  Forall (fun b => 0x80 <= b < 0xC2 \/ 0xF5 <= b < 0x100) bytesIn ->
  consoleFormat bytesIn = flat_map (fun b => lit "\x" ++ hex2 b) bytesIn.
Proof.
  unfold consoleFormat. induction 1 as [|b bs Hb _ IH]; [reflexivity|].
  assert (B : in_byte b) by (unfold in_byte; lia).
  assert (D : decode_with backslashreplace (b :: bs)
              = backslashreplace [b] ++ decode_with backslashreplace bs).
  { rewrite decode_with_cons.
    destruct (Z.ltb_spec b 0x80); [lia|].
    destruct (Z.ltb_spec b 0xC2); [reflexivity|].
    destruct (Z.ltb_spec b 0xE0); [lia|].
    destruct (Z.ltb_spec b 0xF0); [lia|].
    destruct (Z.ltb_spec b 0xF5); [lia | reflexivity]. }
  rewrite D, flat_map_app, IH. cbn [flat_map]. f_equal.
  rewrite flat_map_formatChar_displayable
    by (apply backslashreplace_displayable;
        apply Forall_cons; [exact B | apply Forall_nil]).
  apply backslashreplace_one. exact B.
Qed.

Lemma consoleFormat_escapes_invalid_bytes_witness :
  consoleFormat [0x80; 0xC1; 0xFF]
  = flat_map (fun b => lit "\x" ++ hex2 b) [0x80; 0xC1; 0xFF].
Proof.
  apply consoleFormat_escapes_invalid_bytes.
  repeat apply Forall_cons; try apply Forall_nil; lia.
Defined.

Lemma consoleThread_iter_buffers (st : console_state) (bs : bytes) :
  bs <> [] -> has_CR (charBuf (received bs st)) = false ->
  consoleThread_iter (Recv bs) st
  = (set_charBuf (charBuf (received bs st)) (received bs st), None).
Proof.
  intros NE N. destruct bs as [|b bs]; [contradiction|].
  rewrite consoleThread_iter_lines by (apply (contains_needs_CR _ _ N)).
  unfold frame_lines, reLines_findall.
  rewrite (findall_from_no_CR _ _ N). cbn [relay].
  rewrite (reTrail_search_no_CR_id _ N). reflexivity.
Qed.

Lemma consoleThread_iter_one_line (st : console_state) (bs : bytes)
    (body : pystr) (bb : bytes) :
  bs <> [] -> charBuf (received bs st) = body ++ [CR] ->
  has_CR body = false -> encode body = Some bb ->
  contains quit_cmd (body ++ [CR]) = false ->
  contains break_cmd (body ++ [CR]) = false ->
  consoleThread_iter (Recv bs) st
  = (set_charBuf []
       (put_nowait ((bb ++ [CR]) ++ [LF]) (tPrint body (received bs st))), None).
Proof.
  intros NE D N E Q K. destruct bs as [|b bs]; [contradiction|].
  rewrite consoleThread_iter_lines by (rewrite D; assumption).
  unfold frame_lines. rewrite D, (reLines_findall_line _ N). cbn [relay].
  rewrite (rstrip_line _ N), (encode_line _ _ E).
  cbn [put_nowait tPrint charBuf]. rewrite D.
  rewrite (reTrail_search_after_CR body []). reflexivity.
Qed.

(** X17: the console thread does not reassemble split characters.  When the
    two bytes of a two-byte character arrive in two receives (the second
    one with the CR), each byte is decoded on its own and replaced: the line
    printed and sent to the Roku holds two U+FFFD in place of the
    character. *)
Theorem console_thread_split_character (c lead tail : Z) (st : console_state) :
  charBuf st = [] -> encode_char c = Some [lead; tail] ->
  let run := consoleThread [Recv [lead]; Recv [tail; CR]] st in
  snd run = Blocked
  /\ charBuf (fst run) = []
  /\ printed (fst run) = printed st ++ [[0xFFFD; 0xFFFD]]
  /\ rokuWriterQ (fst run)
     = rokuWriterQ st ++ [[0xEF; 0xBF; 0xBD; 0xEF; 0xBF; 0xBD; CR; LF]].
Proof.
  intros B E run. subst run.
  assert (R : 0xC2 <= lead < 0xE0 /\ 0x80 <= tail < 0xC0).
  { destruct (encode_char_cases c _ E)
      as [(_ & X) | [(R & X) | [(_ & _ & X) | (_ & X)]]]; try discriminate.
    assert (El : lead = 0xC0 + c / 64) by congruence.
    assert (Et : tail = 0x80 + c mod 64) by congruence.
    subst lead tail. split; dm. }
  destruct R as [Rl Rt].
  assert (D1 : decode_with replace [lead] = [0xFFFD]).
  { rewrite decode_with_cons.
    destruct (Z.ltb_spec lead 0x80); [lia|].
    destruct (Z.ltb_spec lead 0xC2); [lia|].
    destruct (Z.ltb_spec lead 0xE0); [reflexivity | lia]. }
  assert (D2 : decode_with replace [tail; CR] = [0xFFFD; CR]).
  { rewrite decode_with_cons.
    destruct (Z.ltb_spec tail 0x80); [lia|].
    destruct (Z.ltb_spec tail 0xC2); [reflexivity | lia]. }
  assert (C1 : charBuf (received [lead] st) = [0xFFFD])
    by (cbn [received charBuf]; rewrite B, D1; reflexivity).
  assert (I1 : consoleThread_iter (Recv [lead]) st
               = (set_charBuf [0xFFFD] (received [lead] st), None)).
  { rewrite consoleThread_iter_buffers; rewrite ?C1; try reflexivity.
    discriminate. }
  cbn [consoleThread]. rewrite I1.
  set (st1 := set_charBuf [0xFFFD] (received [lead] st)).
  assert (C2 : charBuf (received [tail; CR] st1) = [0xFFFD; 0xFFFD] ++ [CR])
    by (cbn [received charBuf st1 set_charBuf]; rewrite D2; reflexivity).
  rewrite (consoleThread_iter_one_line st1 [tail; CR] [0xFFFD; 0xFFFD]
             [0xEF; 0xBF; 0xBD; 0xEF; 0xBF; 0xBD]
             ltac:(discriminate) C2 eq_refl eq_refl eq_refl eq_refl).
  cbn [fst snd]. repeat split.
Qed.

Lemma console_thread_split_character_witness :
  let run := consoleThread [Recv [0xC3]; Recv [0xA9; CR]]
               (console_init {| logFd := None |}) in
  snd run = Blocked
  /\ charBuf (fst run) = []
  /\ printed (fst run) = [] ++ [[0xFFFD; 0xFFFD]]
  /\ rokuWriterQ (fst run)
     = [] ++ [[0xEF; 0xBF; 0xBD; 0xEF; 0xBF; 0xBD; CR; LF]].
Proof.
  apply (console_thread_split_character 0xE9 0xC3 0xA9
           (console_init {| logFd := None |})); reflexivity.
Defined.
